(** * signalbackup-tools: [SignalBackup::dumpMedia]

    A shallow embedding of [src/signalbackup/dumpmedia.cc] and the
    properties of the attachment export that the design document states
    about it.  Integers are [Z] with the C++ conversions written out,
    text is [string], the run state (conversation registry, file system,
    log, attachment frames) is threaded explicitly. *)

From Stdlib Require Import ZArith List String Ascii Bool Lia.
From Stdlib Require Import DecimalString.
From Stdlib Require Lists.Finite.
Import ListNotations.

Local Open Scope string_scope.
Local Open Scope Z_scope.

(** ** Integers and text *)

(** Conversion of a [long long int] to [int], as happens when a thread
    id is stored in a [std::vector<int>]: reduction modulo 2^32 into the
    signed range. *)
Definition int_of_longlong (z : Z) : Z :=
  (z + 2147483648) mod 4294967296 - 2147483648.

Definition fits_int (z : Z) : Prop := -2147483648 <= z <= 2147483647.

(** Modelled from the spec: [bepaald::toString] is declared outside
    [dumpmedia.cc]; the design speaks of appending [_<displayOrder>] and
    of bounds in epoch milliseconds, so it is the decimal rendering of
    the number. *)
Definition toString (z : Z) : string :=
  NilZero.string_of_int (Z.to_int z).

Definition empty (s : string) : bool :=
  match s with EmptyString => true | _ => false end.

(** [v.empty()] on a vector. *)
Definition is_empty {A : Type} (v : list A) : bool :=
  match v with [] => true | _ => false end.

(** [std::find(v.begin(), v.end(), s) != v.end()] on a vector of strings. *)
Definition found (v : list string) (s : string) : bool :=
  existsb (String.eqb s) v.

(** Modelled from the spec: [bepaald::findIdxOf] is declared outside
    [dumpmedia.cc]; "if threadId already has an assigned entry" is the
    position of the first element equal to the value, [-1] when there is
    none.  The elements are [int], the value a [long long int], so the
    comparison is on the mathematical values. *)
Fixpoint findIdxOf_from (i : Z) (v : list Z) (x : Z) : Z :=
  match v with
  | [] => -1
  | y :: v' => if y =? x then i else findIdxOf_from (i + 1) v' x
  end.

Definition findIdxOf (v : list Z) (x : Z) : Z := findIdxOf_from 0 v x.

(** ** The conversation registry (lines 38 and 186-206) *)

(** [std::pair<std::vector<int>, std::vector<std::string>>]: thread ids
    and, at the same positions, the directory names given to them. *)
Definition Conversations : Type := (list Z * list string)%type.

Definition no_conversations : Conversations := ([], []).

(** The loop of lines 199-201: ["(2)"] is appended once, and again for
    as long as the name is taken.  Every round makes the name longer, so
    the loop is over after at most one test per recorded name and one
    more; [rounds] counts the tests that remain
    ([append_marker_while_free] shows that they suffice). *)
Fixpoint append_marker_while (rounds : nat) (names : list string)
    (chatpartner : string) : string :=
  match rounds with
  | O => chatpartner
  | S r =>
      if found names chatpartner
      then append_marker_while r names (chatpartner ++ "(2)")
      else chatpartner
  end.

Definition unique_conversation_name (names : list string)
    (chatpartner : string) : string :=
  append_marker_while (S (List.length names)) names (chatpartner ++ "(2)").

(** Lines 186-206: the registry after the lookup, and [idx_of_thread].
    [push_back(tid)] stores a [long long int] in a vector of [int].  The
    index is the position of an element of a vector, kept as it is. *)
Definition resolve_conversation (conversations : Conversations) (tid : Z)
    (chatpartner : string) : Conversations * Z :=
  let idx_of_thread := findIdxOf (fst conversations) tid in
  if idx_of_thread =? -1 then
    if negb (found (snd conversations) chatpartner) then
      let c := ((fst conversations ++ [int_of_longlong tid])%list,
                (snd conversations ++ [chatpartner])%list) in
      (c, Z.of_nat (List.length (snd c)) - 1)
    else
      let chatpartner := unique_conversation_name (snd conversations) chatpartner in
      let c := ((fst conversations ++ [int_of_longlong tid])%list,
                (snd conversations ++ [chatpartner])%list) in
      (c, Z.of_nat (List.length (snd c)) - 1)
  else (conversations, idx_of_thread).

(** [conversations.second[idx_of_thread]]. *)
Definition conversation_name (conversations : Conversations) (idx : Z) : string :=
  nth (Z.to_nat idx) (snd conversations) "".

(** ** Calendar time *)

(** [std::tm], the fields the format reads. *)
Record tm : Type := {
  tm_sec : Z; tm_min : Z; tm_hour : Z;
  tm_mday : Z; tm_mon : Z; tm_year : Z
}.

Definition two_digits (z : Z) : string :=
  if z <? 10 then "0" ++ toString z else toString z.

(** [std::put_time(t, "signal-%Y-%m-%d-%H%M%S")] (line 160). *)
Definition put_time_signal (t : tm) : string :=
  "signal-" ++ toString (tm_year t + 1900) ++ "-" ++ two_digits (tm_mon t + 1)
    ++ "-" ++ two_digits (tm_mday t) ++ "-" ++ two_digits (tm_hour t)
    ++ two_digits (tm_min t) ++ two_digits (tm_sec t).

(** Days since 1970-01-01 of a date of the proleptic Gregorian calendar,
    and back.  The time zone database is not part of the program: these
    give the calendar of a machine whose local time is UTC, used where a
    concrete clock is needed. *)
Definition days_from_civil (y m d : Z) : Z :=
  let y := if m <=? 2 then y - 1 else y in
  let era := y / 400 in
  let yoe := y - era * 400 in
  let doy := (153 * (if 2 <? m then m - 3 else m + 9) + 2) / 5 + d - 1 in
  let doe := yoe * 365 + yoe / 4 - yoe / 100 + doy in
  era * 146097 + doe - 719468.

Definition civil_from_days (z : Z) : Z * Z * Z :=
  let z := z + 719468 in
  let era := z / 146097 in
  let doe := z - era * 146097 in
  let yoe := (doe - doe / 1460 + doe / 36524 - doe / 146096) / 365 in
  let doy := doe - (365 * yoe + yoe / 4 - yoe / 100) in
  let mp := (5 * doy + 2) / 153 in
  let d := doy - (153 * mp + 2) / 5 + 1 in
  let m := if mp <? 10 then mp + 3 else mp - 9 in
  ((if m <=? 2 then yoe + era * 400 + 1 else yoe + era * 400), m, d).

Definition gmtime (epoch : Z) : tm :=
  let days := epoch / 86400 in
  let secs := epoch mod 86400 in
  let '(y, m, d) := civil_from_days days in
  {| tm_sec := secs mod 60; tm_min := (secs / 60) mod 60; tm_hour := secs / 3600;
     tm_mday := d; tm_mon := m - 1; tm_year := y - 1900 |}.

(** ** Data of a run *)

(** One row of [SqliteDB::QueryResults], read through [isNull],
    [getValueAs<long long int>] and [valueAsString]; [None] is SQL
    [NULL].  The last four columns exist in the full projection only. *)
Record Row : Type := {
  ct : string;
  file_name : option string;
  display_order : Z;
  date_received : option Z;
  mms_type : option Z;
  thread_id : option Z;
  chatpartner : option string
}.

(** [AttachmentFrame]: the identifiers and the payload held in memory
    ([None] once [clearData] has released it). *)
Record AttachmentFrame : Type := {
  rowId : Z;
  attachmentId : Z;
  attachmentData : option (list Byte.byte)
}.

Definition clearData (a : AttachmentFrame) : AttachmentFrame :=
  {| rowId := rowId a; attachmentId := attachmentId a; attachmentData := None |}.

(** What [Logger] was asked to print, the arguments joined as the
    logger streams them. *)
Inductive LogEntry : Type :=
| Message (text : string)
| MessageOverwrite (text : string)
| Warning (text : string)
| Error (text : string)
| ErrorIndent (text : string).

(** How the body of the loop was left for one attachment. *)
Inductive Outcome : Type :=
| ExcludedByFilter      (* line 137 *)
| UnexpectedRows        (* line 142 *)
| DirectoryFailed       (* lines 216 and 230 *)
| NoUniqueName          (* line 239 *)
| OpenFailed            (* line 269 *)
| WriteFailed.          (* line 276 *)

(** The collaborators [dumpMedia] calls and the members it reads, none
    of them defined in [dumpmedia.cc].  [FS] is the state of the file
    system (with the names [makeFilenameUnique] has handed out). *)
Record World (FS : Type) : Type := {
  (* d_database *)
  containsTable : string -> bool;
  tableContainsColumn : string -> string -> bool;
  exec : string -> Z -> Z -> option (list Row);   (* [None]: [exec] returned false *)
  (* names that depend on the database version *)
  d_mms_table : string;
  d_mms_type : string;
  d_thread_recipient_id : string;
  d_recipient_system_joined_name : string;
  d_recipient_profile_given_name : string;
  d_verbose : bool;
  (* helpers; the flag is what the call leaves in [*needrounding] *)
  dateToMSecsSinceEpoch : string -> Z * bool;
  sanitizeFilename : string -> string;
  getExtension : string -> string;
  localtime : Z -> tm;
  isOutgoing : Z -> bool;
  (* file system *)
  prepareOutputDirectory : FS -> string -> bool -> bool * FS;
  isDir : FS -> string -> bool;
  createDir : FS -> string -> bool * FS;
  makeFilenameUnique : FS -> string -> string -> bool * string * FS;   (* result, [*filename] *)
  ofstream_open : FS -> string -> bool * FS;
  ofstream_write : FS -> string -> option (list Byte.byte) -> bool * FS;
  ofstream_close : FS -> string -> FS;
  setFileTimeStamp : FS -> string -> Z -> FS
}.

Arguments containsTable {FS} _ _.
Arguments tableContainsColumn {FS} _ _ _.
Arguments exec {FS} _ _ _ _.
Arguments d_mms_table {FS} _.
Arguments d_mms_type {FS} _.
Arguments d_thread_recipient_id {FS} _.
Arguments d_recipient_system_joined_name {FS} _.
Arguments d_recipient_profile_given_name {FS} _.
Arguments d_verbose {FS} _.
Arguments dateToMSecsSinceEpoch {FS} _ _.
Arguments sanitizeFilename {FS} _ _.
Arguments getExtension {FS} _ _.
Arguments localtime {FS} _ _.
Arguments isOutgoing {FS} _ _.
Arguments prepareOutputDirectory {FS} _ _ _ _.
Arguments isDir {FS} _ _ _.
Arguments createDir {FS} _ _ _.
Arguments makeFilenameUnique {FS} _ _ _ _.
Arguments ofstream_open {FS} _ _ _.
Arguments ofstream_write {FS} _ _ _ _.
Arguments ofstream_close {FS} _ _ _.
Arguments setFileTimeStamp {FS} _ _ _ _.

(** What a run changes: the registry (a local of [dumpMedia]), the file
    system, the log and the attachment frames the backup owns. *)
Record State (FS : Type) : Type := {
  conversations : Conversations;
  fs : FS;
  log : list LogEntry;
  d_attachments : list AttachmentFrame
}.

Arguments conversations {FS} _.
Arguments fs {FS} _.
Arguments log {FS} _.
Arguments d_attachments {FS} _.

(** ** Control flow of the loop body *)

Inductive Flow (A : Type) : Type :=
| Next (x : A)              (* on to the next statement *)
| Continue (o : Outcome)    (* [continue] *)
| ReturnFalse.              (* [return false] *)

Arguments Next {A} _.
Arguments Continue {A} _.
Arguments ReturnFalse {A}.

Definition M (FS A : Type) : Type := State FS -> Flow A * State FS.

Definition ret {FS A} (x : A) : M FS A := fun st => (Next x, st).

Definition bind {FS A B} (m : M FS A) (k : A -> M FS B) : M FS B :=
  fun st =>
    match m st with
    | (Next x, st') => k x st'
    | (Continue o, st') => (Continue o, st')
    | (ReturnFalse, st') => (ReturnFalse, st')
    end.

Notation "x <- m ;; k" := (bind m (fun x => k))
  (at level 61, m at next level, right associativity).
Notation "m ;; k" := (bind m (fun _ => k))
  (at level 61, right associativity).

Definition continue_with {FS A} (o : Outcome) : M FS A :=
  fun st => (Continue o, st).

Definition return_false {FS A} : M FS A := fun st => (ReturnFalse, st).

Definition logger {FS} (entries : list LogEntry) : M FS unit :=
  fun st =>
    (Next tt, {| conversations := conversations st; fs := fs st;
                 log := (log st ++ entries)%list;
                 d_attachments := d_attachments st |}).

Definition with_fs {FS A} (f : FS -> A * FS) : M FS A :=
  fun st =>
    let '(x, fs') := f (fs st) in
    (Next x, {| conversations := conversations st; fs := fs';
                log := log st; d_attachments := d_attachments st |}).

Definition with_conversations {FS A} (f : Conversations -> A * Conversations) : M FS A :=
  fun st =>
    let '(x, c) := f (conversations st) in
    (Next x, {| conversations := c; fs := fs st;
                log := log st; d_attachments := d_attachments st |}).

(** [a->clearData()] on the frame at position [i] of the collection. *)
Fixpoint clear_at (i : nat) (frames : list AttachmentFrame) : list AttachmentFrame :=
  match frames, i with
  | [], _ => []
  | a :: rest, O => clearData a :: rest
  | a :: rest, S j => a :: clear_at j rest
  end.

Definition clear_frame {FS} (i : nat) : M FS unit :=
  fun st =>
    (Next tt, {| conversations := conversations st; fs := fs st;
                 log := log st; d_attachments := clear_at i (d_attachments st) |}).

(** ** The lookup statement (lines 61-126) *)

Section Query.

Context {FS : Type} (w : World FS).

(** Lines 65-66. *)
Definition fullbackup : bool :=
  containsTable w (d_mms_table w) && containsTable w "thread" &&
  containsTable w "groups" && containsTable w "recipient".

(** Line 63. *)
Definition minimal_query : string :=
  "SELECT part.mid, part.ct, part.file_name, part.display_order FROM part WHERE part._id == ? AND part.unique_id == ?".

(** Lines 69-79. *)
Definition full_query : string :=
  "SELECT part.mid, part.ct, part.file_name, part.display_order, " ++
  d_mms_table w ++ ".date_received, " ++ d_mms_table w ++ "." ++ d_mms_type w ++ ", " ++
  d_mms_table w ++ ".thread_id, thread." ++ d_thread_recipient_id w ++
  ", COALESCE(groups.title,recipient." ++ d_recipient_system_joined_name w ++
  ", recipient.profile_joined_name, recipient." ++ d_recipient_profile_given_name w ++
  ") AS 'chatpartner' FROM part LEFT JOIN " ++ d_mms_table w ++
  " ON part.mid == " ++ d_mms_table w ++ "._id LEFT JOIN thread ON " ++
  d_mms_table w ++ ".thread_id == thread._id LEFT JOIN recipient ON thread." ++
  d_thread_recipient_id w ++
  " == recipient._id LEFT JOIN groups ON recipient.group_id == groups.group_id WHERE part._id == ? AND part.unique_id == ?".

(** Lines 85-86: the ids, a comma after each but the last, which is
    followed by the closing parenthesis. *)
Fixpoint thread_list (threads : list Z) : string :=
  match threads with
  | [] => ""
  | t :: rest =>
      toString t ++ (match rest with [] => ")" | _ => "," end) ++ thread_list rest
  end.

(** Lines 82-87. *)
Definition thread_clause (threads : list Z) : string :=
  match threads with
  | [] => ""
  | _ => " AND thread._id IN (" ++ thread_list threads
  end.

(** Lines 93-95. *)
Fixpoint consecutive_pairs (l : list string) : list (string * string) :=
  match l with
  | a :: b :: rest => (a, b) :: consecutive_pairs rest
  | _ => []
  end.

Definition dateranges (daterangelist : list string) : list (string * string) :=
  if (Z.of_nat (List.length daterangelist) mod 2 =? 0)
  then consecutive_pairs daterangelist
  else [].

(** Lines 99-123, from position [i] on: [ranges] is what is left of
    [dateranges], so [i == dateranges.size() - 1] is "nothing follows".
    The clause and the log so far are passed along. *)
Fixpoint date_clause_loop (ranges : list (string * string))
    (datewhereclause : string) (logged : list LogEntry) : string * list LogEntry :=
  match ranges with
  | [] => (datewhereclause, logged)
  | (first, second) :: rest =>
      let startrange := fst (dateToMSecsSinceEpoch w first) in
      let '(endrange, needrounding) := dateToMSecsSinceEpoch w second in
      if (startrange =? -1) || (endrange =? -1) || (endrange <? startrange) then
        date_clause_loop rest datewhereclause
          (logged ++
           [Error ("Skipping range: '" ++ first ++ " - " ++ second ++
                   "'. Failed to parse or invalid range.");
            ErrorIndent (toString startrange ++ " " ++ toString endrange)])%list
      else
        let logged :=
          if d_verbose w
          then (logged ++
                [Message ("  Using range: " ++ first ++ " - " ++ second ++ " (" ++
                          toString startrange ++ " - " ++ toString endrange ++ ")")])%list
          else logged in
        let endrange := if needrounding then endrange + 999 else endrange in
        let datewhereclause :=
          datewhereclause ++
          (if empty datewhereclause then " AND (" else " OR ") ++
          "date_received BETWEEN " ++ toString startrange ++ " AND " ++ toString endrange in
        let datewhereclause :=
          match rest with
          | [] => datewhereclause ++ ")"
          | _ => datewhereclause
          end in
        date_clause_loop rest datewhereclause logged
  end.

(** Lines 89-126. *)
Definition date_clause (daterangelist : list string) : string * list LogEntry :=
  match daterangelist with
  | [] => ("", [])
  | _ => date_clause_loop (dateranges daterangelist) "" []
  end.

(** Lines 61-129: the statement, and what building it logs. *)
Definition lookup_query (daterangelist : list string) (threads : list Z)
  : string * list LogEntry :=
  let query := if fullbackup then full_query else minimal_query in
  let query := query ++ thread_clause threads in
  let '(datewhereclause, logged) := date_clause daterangelist in
  let query := query ++ datewhereclause in
  (query,
   if d_verbose w
   then (logged ++ [Message ("Dump media query: " ++ query)])%list
   else logged).

End Query.

(** ** What the relational store needs of a statement

    The store (SQLite) is not part of the program.  Two things it
    requires of every statement can be read off the text: parentheses
    pair up, and a column qualified with a table name belongs to a table
    of the [FROM] clause. *)

Fixpoint paren_depth (s : string) (depth : nat) : option nat :=
  match s with
  | EmptyString => Some depth
  | String c s' =>
      if Ascii.eqb c "("%char then paren_depth s' (S depth)
      else if Ascii.eqb c ")"%char then
        match depth with
        | O => None
        | S d => paren_depth s' d
        end
      else paren_depth s' depth
  end.

Definition parens_balanced (s : string) : bool :=
  match paren_depth s 0 with
  | Some O => true
  | _ => false
  end.

Definition contains (part s : string) : bool :=
  match String.index 0 part s with
  | Some _ => true
  | None => false
  end.

(** The statement filters on [thread._id] without [thread] among the
    joined tables. *)
Definition thread_unjoined (query : string) : bool :=
  contains "thread._id IN" query && negb (contains "JOIN thread " query).

Definition well_formed_lookup (query : string) : bool :=
  parens_balanced query && negb (thread_unjoined query).

(** ** The loop body (lines 48-286) *)

Section Body.

Context {FS : Type} (w : World FS).

(** Lines 146-149. *)
Definition effective_datum (a : AttachmentFrame) (r : Row) : Z :=
  if fullbackup w then
    match date_received r with
    | Some d => d
    | None => attachmentId a
    end
  else attachmentId a.

(** Lines 152-153: the name on record, sanitized; empty when there is
    none. *)
Definition recorded_filename (r : Row) : string :=
  match file_name r with
  | Some f => sanitizeFilename w f
  | None => ""
  end.

(** Lines 158-160; [datum / 1000] rounds towards zero. *)
Definition date_stem (datum : Z) : string :=
  put_time_signal (localtime w (Z.quot datum 1000)).

(** Line 173. *)
Definition generated_filename (datum order : Z) (ext : string) : string :=
  date_stem datum ++ (if order =? 0 then "" else "_" ++ toString order) ++ "." ++ ext.

(** Lines 145-174. *)
Definition choose_filename (a : AttachmentFrame) (r : Row) : M FS string :=
  let datum := effective_datum a r in
  let order := display_order r in
  let filename := recorded_filename r in
  if empty filename then
    let mime := ct r in
    let ext := getExtension w mime in
    if empty ext then
      logger [Warning ("mimetype not found in database (" ++ mime ++ ") -> saving as '" ++
                       date_stem datum ++ "." ++ "attach" ++ "'")] ;;
      ret (generated_filename datum order "attach")
    else ret (generated_filename datum order ext)
  else ret filename.

(** Lines 209-218 and 224-232. *)
Definition ensure_directory (path : string) : M FS unit :=
  fun st =>
    if isDir w (fs st) path then (Next tt, st)
    else
      (created <- with_fs (fun f => createDir w f path) ;;
       if created : bool then ret tt
       else logger [Error ("Failed to create directory '" ++ path ++ "'")] ;;
            continue_with DirectoryFailed) st.

(** Lines 177-233. *)
Definition choose_targetdir (dir : string) (r : Row) : M FS string :=
  if fullbackup w then
    match thread_id r, chatpartner r, mms_type r with
    | Some tid, Some partner, Some msg_box =>
        let chatpartner := sanitizeFilename w partner in
        let chatpartner :=
          if empty chatpartner then "Contact " ++ toString tid else chatpartner in
        name <- with_conversations (fun c =>
                  let '(c', idx_of_thread) := resolve_conversation c tid chatpartner in
                  (conversation_name c' idx_of_thread, c')) ;;
        ensure_directory (dir ++ "/" ++ name) ;;
        let targetdir :=
          dir ++ "/" ++ name ++ "/" ++ (if isOutgoing w msg_box then "sent" else "received") in
        ensure_directory targetdir ;;
        ret targetdir
    | _, _, _ => ret dir
    end
  else ret dir.

(** Lines 264-281.  Leaving the body through [continue] after the
    stream was opened closes it as the stream goes out of scope. *)
Definition write_attachment (i : nat) (a : AttachmentFrame)
    (path : string) (datum : Z) : M FS unit :=
  is_open <- with_fs (fun f => ofstream_open w f path) ;;
  if negb is_open then
    logger [Error ("Failed to open file for writing: '" ++ path ++ "'")] ;;
    continue_with OpenFailed
  else
    written <- with_fs (fun f => ofstream_write w f path (attachmentData a)) ;;
    if negb written then
      logger [Error ("Failed to write data to file: '" ++ path ++ "'")] ;;
      clear_frame i ;;
      with_fs (fun f => (tt, ofstream_close w f path)) ;;
      continue_with WriteFailed
    else
      with_fs (fun f => (tt, ofstream_close w f path)) ;;
      clear_frame i ;;
      with_fs (fun f => (tt, setFileTimeStamp w f path datum)).

(** Lines 139-143. *)
Definition unexpected_rows {A} (a : AttachmentFrame) (results : list Row) : M FS A :=
  logger [Error ("Unexpected number of results: " ++
                 toString (Z.of_nat (List.length results)) ++
                 " (rowid: " ++ toString (rowId a) ++
                 ", uniqueid: " ++ toString (attachmentId a) ++ ")")] ;;
  continue_with UnexpectedRows.

(** Lines 136-281: what is done with the rows the lookup returned. *)
Definition handle_results (dir : string) (daterangelist : list string)
    (threads : list Z) (i : nat) (a : AttachmentFrame) (results : list Row) : M FS unit :=
  if (Nat.eqb (List.length results) 0) &&
     (negb (is_empty threads) || negb (is_empty daterangelist))
  then continue_with ExcludedByFilter
  else
    match results with
    | [r] =>
        filename <- choose_filename a r ;;
        targetdir <- choose_targetdir dir r ;;
        unique <- with_fs (fun f => makeFilenameUnique w f targetdir filename) ;;
        let '(is_unique, filename) := unique in
        if negb is_unique then
          logger [Error ("getting unique filename for '" ++ targetdir ++ "/" ++
                         filename ++ "'")] ;;
          continue_with NoUniqueName
        else
          write_attachment i a (targetdir ++ "/" ++ filename) (effective_datum a r)
    | _ => unexpected_rows a results
    end.

(** Lines 50-132: progress line, statement, lookup. *)
Definition run_lookup (daterangelist : list string) (threads : list Z)
    (count : Z) (a : AttachmentFrame) : M FS (list Row) :=
  fun st =>
    (logger [MessageOverwrite ("Saving attachments...  " ++ toString count ++ "/" ++
                               toString (Z.of_nat (List.length (d_attachments st))))] ;;
     let '(query, logged) := lookup_query w daterangelist threads in
     logger logged ;;
     match exec w query (rowId a) (attachmentId a) with
     | None => return_false
     | Some results => ret results
     end) st.

(** One pass through the body, for the frame [a] at position [i]. *)
Definition process_attachment (dir : string) (daterangelist : list string)
    (threads : list Z) (i : nat) (a : AttachmentFrame) : M FS unit :=
  results <- run_lookup daterangelist threads (Z.of_nat i + 1) a ;;
  handle_results dir daterangelist threads i a results.

(** The [for] loop over [d_attachments], from position [i] on; [todo]
    are the frames not yet visited. *)
Fixpoint dump_loop (dir : string) (daterangelist : list string) (threads : list Z)
    (i : nat) (todo : list AttachmentFrame) (st : State FS) : bool * State FS :=
  match todo with
  | [] => (true, st)
  | a :: rest =>
      match process_attachment dir daterangelist threads i a st with
      | (ReturnFalse, st') => (false, st')
      | (_, st') => dump_loop dir daterangelist threads (S i) rest st'
      end
  end.

Definition add_log (entries : list LogEntry) (st : State FS) : State FS :=
  {| conversations := conversations st; fs := fs st;
     log := (log st ++ entries)%list; d_attachments := d_attachments st |}.

(** [SignalBackup::dumpMedia]. *)
Definition dumpMedia (dir : string) (daterangelist : list string)
    (threads : list Z) (overwrite : bool) (st : State FS) : bool * State FS :=
  let st := add_log [Message ("Dumping media to dir '" ++ dir ++ "'")] st in
  if negb (containsTable w "part") || negb (tableContainsColumn w "part" "display_order")
  then
    (false,
     add_log [Error "Database too badly damaged or too old, dumping media is not (yet) supported, consider a full decrypt by just passing a directory as output"] st)
  else
    let '(prepared, fs') := prepareOutputDirectory w (fs st) dir overwrite in
    let st := {| conversations := no_conversations; fs := fs';
                 log := log st; d_attachments := d_attachments st |} in
    if negb prepared then (false, st)
    else
      let '(result, st) := dump_loop dir daterangelist threads 0 (d_attachments st) st in
      if result then (true, add_log [Message "done."] st) else (false, st).

End Body.

(** ** The date parser of the design *)

Definition digit_value (c : ascii) : option Z :=
  let n := Z.of_nat (nat_of_ascii c) in
  if (48 <=? n) && (n <=? 57) then Some (n - 48) else None.

Fixpoint number_of_digits (cs : list ascii) (acc : Z) : option Z :=
  match cs with
  | [] => Some acc
  | c :: rest =>
      match digit_value c with
      | Some d => number_of_digits rest (acc * 10 + d)
      | None => None
      end
  end.

Definition field (s : string) (pos len : nat) : option Z :=
  number_of_digits (list_ascii_of_string (substring pos len s)) 0.

Definition separator (s : string) (pos : nat) (c : string) : bool :=
  String.eqb (substring pos 1 s) c.

(** ["YYYY-MM-DD"] at the start of [s]: days since the epoch. *)
Definition parse_date (s : string) : option Z :=
  if separator s 4 "-" && separator s 7 "-" then
    match field s 0 4, field s 5 2, field s 8 2 with
    | Some y, Some m, Some d =>
        if (1 <=? m) && (m <=? 12) && (1 <=? d) && (d <=? 31)
        then Some (days_from_civil y m d) else None
    | _, _, _ => None
    end
  else None.

(** [" HH:MM:SS"] from position 10 of [s]: seconds since midnight. *)
Definition parse_time (s : string) : option Z :=
  if separator s 10 " " && separator s 13 ":" && separator s 16 ":" then
    match field s 11 2, field s 14 2, field s 17 2 with
    | Some h, Some m, Some sec =>
        if (h <=? 23) && (m <=? 59) && (sec <=? 59)
        then Some (h * 3600 + m * 60 + sec) else None
    | _, _, _ => None
    end
  else None.

(** Whether a bound is given without time of day. *)
Definition date_only (s : string) : bool :=
  Nat.eqb (String.length s) 10 && match parse_date s with Some _ => true | None => false end.

(** Whether a bound is given with its time of day. *)
Definition date_and_time (s : string) : bool :=
  Nat.eqb (String.length s) 19 &&
  match parse_date s, parse_time s with Some _, Some _ => true | _, _ => false end.

(** Modelled from the spec: [SignalBackup::dateToMSecsSinceEpoch] is
    defined outside [dumpmedia.cc].  The design (4.1 and scenario E) has
    it turn a bound into epoch milliseconds, fail on text that is no
    date ([-1], the value line 104 tests for) and raise the rounding
    flag for a bound "given without time-of-day granularity
    (date-only)", as ["2023-01-01"], and not for one with its time of
    day, as ["2023-01-01 12:00:00"].  Local time is taken to be UTC. *)
Definition spec_dateToMSecsSinceEpoch (s : string) : Z * bool :=
  if Nat.eqb (String.length s) 10 then
    match parse_date s with
    | Some days => (days * 86400000, true)
    | None => (-1, false)
    end
  else if Nat.eqb (String.length s) 19 then
    match parse_date s, parse_time s with
    | Some days, Some secs => ((days * 86400 + secs) * 1000, false)
    | _, _ => (-1, false)
    end
  else (-1, false).

(** ** A small world to run the export in

    Paths that exist stand for the file system.  Every table of
    [tables] holds every column; [answer] is the relational store;
    [openable] and [writable] say whether streams open and take data. *)
Definition sample_world (tables : list string)
    (answer : string -> Z -> Z -> option (list Row))
    (openable writable : bool) : World (list string) :=
  {| containsTable := found tables;
     tableContainsColumn := fun t _ => found tables t;
     exec := answer;
     d_mms_table := "mms";
     d_mms_type := "msg_box";
     d_thread_recipient_id := "thread_recipient_id";
     d_recipient_system_joined_name := "system_display_name";
     d_recipient_profile_given_name := "signal_profile_name";
     d_verbose := false;
     dateToMSecsSinceEpoch := spec_dateToMSecsSinceEpoch;
     sanitizeFilename := fun s => s;
     getExtension := fun mime => if String.eqb mime "image/png" then "png" else "";
     localtime := gmtime;
     isOutgoing := fun msg_box => msg_box =? 23;
     prepareOutputDirectory := fun f dir _ => (true, dir :: f);
     isDir := fun f path => found f path;
     createDir := fun f path => (true, path :: f);
     makeFilenameUnique := fun f _ filename => (true, filename, f);
     ofstream_open := fun f path => (openable, if openable then path :: f else f);
     ofstream_write := fun f _ _ => (writable, f);
     ofstream_close := fun f _ => f;
     setFileTimeStamp := fun f _ _ => f |}.

Definition full_tables : list string :=
  ["part"; "mms"; "thread"; "groups"; "recipient"].

Definition sample_frame (rid uid : Z) : AttachmentFrame :=
  {| rowId := rid; attachmentId := uid;
     attachmentData := Some [Byte.x89; Byte.x50; Byte.x4e; Byte.x47] |}.

Definition sample_state (frames : list AttachmentFrame) : State (list string) :=
  {| conversations := no_conversations; fs := []; log := []; d_attachments := frames |}.

Definition sample_row (order : Z) (received : option Z) (tid : Z) (partner : string) : Row :=
  {| ct := "image/png"; file_name := None; display_order := order;
     date_received := received; mms_type := Some 23;
     thread_id := Some tid; chatpartner := Some partner |}.

(** A store that refuses a statement it cannot prepare and answers
    [rows] otherwise. *)
Definition checking_store (rows : Z -> Z -> list Row)
  : string -> Z -> Z -> option (list Row) :=
  fun query rid uid =>
    if well_formed_lookup query then Some (rows rid uid) else None.

(** ** Notions the properties are stated with *)

(** [k] copies of the marker. *)
Fixpoint markers (k : nat) : string :=
  match k with
  | O => ""
  | S j => "(2)" ++ markers j
  end.

(** The registry pairs ids and names one to one: as many ids as
    names, no id and no name twice. *)
Definition registry_ok (c : Conversations) : Prop :=
  List.length (fst c) = List.length (snd c) /\ NoDup (fst c) /\ NoDup (snd c).

(** The registry after the lookups of a run, in order. *)
Definition resolve_all (c : Conversations) (lookups : list (Z * string)) : Conversations :=
  fold_left (fun c lookup => fst (resolve_conversation c (fst lookup) (snd lookup)))
            lookups c.

Section Notions.

Context {FS : Type} (w : World FS).

(** The text one range contributes. *)
Definition range_text (startrange endrange : Z) : string :=
  "date_received BETWEEN " ++ toString startrange ++ " AND " ++ toString endrange.

(** Line 104, negated: the pair is used. *)
Definition kept (range : string * string) : bool :=
  let startrange := fst (dateToMSecsSinceEpoch w (fst range)) in
  let endrange := fst (dateToMSecsSinceEpoch w (snd range)) in
  negb ((startrange =? -1) || (endrange =? -1) || (endrange <? startrange)).

(** The bounds of a pair as they appear in the filter. *)
Definition kept_text (range : string * string) : string :=
  let startrange := fst (dateToMSecsSinceEpoch w (fst range)) in
  let '(endrange, needrounding) := dateToMSecsSinceEpoch w (snd range) in
  range_text startrange (if needrounding then endrange + 999 else endrange).

Definition closing (rest : list (string * string)) (clause : string) : string :=
  match rest with
  | [] => clause ++ ")"
  | _ => clause
  end.

Definition opening (clause : string) : string :=
  if empty clause then " AND (" else " OR ".

Definition skip_entries (range : string * string) : list LogEntry :=
  [Error ("Skipping range: '" ++ fst range ++ " - " ++ snd range ++
          "'. Failed to parse or invalid range.");
   ErrorIndent (toString (fst (dateToMSecsSinceEpoch w (fst range))) ++ " " ++
                toString (fst (dateToMSecsSinceEpoch w (snd range))))].

Definition use_entries (range : string * string) : list LogEntry :=
  if d_verbose w then
    [Message ("  Using range: " ++ fst range ++ " - " ++ snd range ++ " (" ++
              toString (fst (dateToMSecsSinceEpoch w (fst range))) ++ " - " ++
              toString (fst (dateToMSecsSinceEpoch w (snd range))) ++ ")")]
  else [].

(** The texts, each after [" OR "]. *)
Fixpoint or_join (texts : list string) : string :=
  match texts with
  | [] => ""
  | t :: rest => " OR " ++ t ++ or_join rest
  end.

(** Whether the pair at the last position is used. *)
Fixpoint last_kept (ranges : list (string * string)) : bool :=
  match ranges with
  | [] => false
  | range :: rest =>
      match rest with
      | [] => kept range
      | _ => last_kept rest
      end
  end.

(** The state once the lookup for the frame at position [i] has been
    made: the progress line and what building the statement logs have
    been added to the log, nothing else has changed. *)
Definition after_lookup (daterangelist : list string) (threads : list Z)
    (i : nat) (st : State FS) : State FS :=
  add_log
    (MessageOverwrite ("Saving attachments...  " ++ toString (Z.of_nat i + 1) ++ "/" ++
                       toString (Z.of_nat (List.length (d_attachments st))))
     :: snd (lookup_query w daterangelist threads)) st.


End Notions.

(** A text without parentheses. *)
Definition paren_free (s : string) : Prop := forall d, paren_depth s d = Some d.

(** A step that is never left through [return false]. *)
Definition never_aborts {FS A : Type} (m : M FS A) : Prop :=
  forall st, fst (m st) <> ReturnFalse.

(** The texts, with a comma between neighbours. *)
Fixpoint comma_join (texts : list string) : string :=
  match texts with
  | [] => ""
  | t :: rest =>
      match rest with
      | [] => t
      | _ => t ++ "," ++ comma_join rest
      end
  end.

(** Whether the character occurs in the text. *)
Fixpoint occurs (c : ascii) (s : string) : bool :=
  match s with
  | EmptyString => false
  | String x s' => Ascii.eqb x c || occurs c s'
  end.

(** The five names of tables and columns that depend on the database
    version hold no parenthesis. *)
Definition plain_names {FS : Type} (w : World FS) : Prop :=
  paren_free (d_mms_table w) /\ paren_free (d_mms_type w) /\
  paren_free (d_thread_recipient_id w) /\
  paren_free (d_recipient_system_joined_name w) /\
  paren_free (d_recipient_profile_given_name w).

(** A step after which the state is related to the state before. *)
Definition preserved {FS A : Type} (R : State FS -> State FS -> Prop) (m : M FS A) : Prop :=
  forall st, R st (snd (m st)).

(** The frames are the same frames, some with their payload released. *)
Definition released_only (frames frames' : list AttachmentFrame) : Prop :=
  Forall2 (fun a a' => a' = a \/ a' = clearData a) frames frames'.

(** The ways of leaving the loop body that come after a write. *)
Definition after_write {A : Type} (flow : Flow A) : bool :=
  match flow with
  | Next _ => true
  | Continue WriteFailed => true
  | _ => false
  end.

(** A step that leaves the frames alone and is not left as a failed
    write. *)
Definition quiet {FS A : Type} (m : M FS A) : Prop :=
  forall st,
    d_attachments (snd (m st)) = d_attachments st /\
    fst (m st) <> Continue WriteFailed.

(** A step of the body for the frame at position [i] that releases the
    payload of that frame when it is left after a write and leaves the
    frames alone otherwise. *)
Definition releases_after_write {FS : Type} (i : nat) (m : M FS unit) : Prop :=
  forall st,
    d_attachments (snd (m st)) =
    if after_write (fst (m st)) then clear_at i (d_attachments st)
    else d_attachments st.

(** ** The store and the schema *)

(** The store agrees with the schema checks: on a database without the
    [part] table, or without the [display_order] column in it, no
    lookup statement can be executed (both statements of lines 63 and
    69-79 select [part.display_order] from [part]). *)
Definition store_follows_schema {FS : Type} (w : World FS) : Prop :=
  containsTable w "part" = false \/ tableContainsColumn w "part" "display_order" = false ->
  forall daterangelist threads rid uid,
    exec w (fst (lookup_query w daterangelist threads)) rid uid = None.

(** ** The bounds of a range under the parser of the design *)

(** The text a pair contributes when the end bound is extended by
    999 ms exactly if it is a date without time of day. *)
Definition spec_range_text (range : string * string) : string :=
  let startrange := fst (spec_dateToMSecsSinceEpoch (fst range)) in
  let endrange := fst (spec_dateToMSecsSinceEpoch (snd range)) in
  range_text startrange (if date_only (snd range) then endrange + 999 else endrange).

(** ** The stem [signal-YYYY-MM-DD-HHMMSS] *)






(** ** Unique names *)








(** * Properties *)

(** ** Text *)

Lemma append_assoc (a b c : string) : (a ++ b) ++ c = a ++ (b ++ c).
Proof.
  induction a as [|x a IH]; simpl; [reflexivity|now rewrite IH].
Qed.

Lemma append_nil_r (a : string) : a ++ "" = a.
Proof.
  induction a as [|x a IH]; simpl; [reflexivity|now rewrite IH].
Qed.

Lemma length_append (a b : string) :
  String.length (a ++ b) = (String.length a + String.length b)%nat.
Proof.
  induction a as [|x a IH]; simpl; [reflexivity|now rewrite IH].
Qed.

(** Equations between texts, up to the bracketing of [++]. *)
Ltac text_eq :=
  repeat rewrite append_nil_r; repeat rewrite append_assoc; reflexivity.

Lemma found_In (v : list string) (s : string) : found v s = true <-> In s v.
Proof.
  unfold found. rewrite existsb_exists. split.
  - intros [x [Hin Heq]]. apply String.eqb_eq in Heq. now subst.
  - intros Hin. exists s. split; [assumption|apply String.eqb_refl].
Qed.

Lemma found_app (v v' : list string) (s : string) :
  found (v ++ v') s = found v s || found v' s.
Proof. unfold found. apply existsb_app. Qed.

(** ** The registry *)

Lemma markers_shift (c : string) (j : nat) :
  (c ++ "(2)") ++ markers j = c ++ markers (S j).
Proof. simpl markers. now rewrite append_assoc. Qed.

Lemma length_markers (c : string) (k : nat) :
  String.length (c ++ markers k) = (String.length c + 3 * k)%nat.
Proof.
  rewrite length_append. f_equal.
  induction k as [|k IH]; simpl; [reflexivity|].
  simpl in IH. rewrite IH. lia.
Qed.

(** The loop stops at the first name that is free, or when the tests
    are used up. *)
Lemma append_marker_while_stops (rounds : nat) (names : list string) :
  forall c, exists j,
    (j <= rounds)%nat /\
    append_marker_while rounds names c = c ++ markers j /\
    (forall i, (i < j)%nat -> found names (c ++ markers i) = true) /\
    ((j < rounds)%nat -> found names (c ++ markers j) = false).
Proof.
  induction rounds as [|r IH]; intros c.
  - exists O. simpl. rewrite append_nil_r.
    split; [lia|]. split; [reflexivity|]. split; intros; lia.
  - simpl. destruct (found names c) eqn:Hc.
    + destruct (IH (c ++ "(2)")) as [j [Hle [Heq [Hall Hfree]]]].
      exists (S j). rewrite <- markers_shift.
      split; [lia|]. split; [exact Heq|]. split.
      * intros [|i] Hi.
        -- simpl. now rewrite append_nil_r.
        -- rewrite <- markers_shift. apply Hall. lia.
      * intros Hlt. apply Hfree. lia.
    + exists O. simpl. rewrite append_nil_r.
      split; [lia|]. split; [reflexivity|]. split.
      * intros i Hi. lia.
      * intros _. exact Hc.
Qed.

Lemma marked_names_distinct (c : string) (n : nat) :
  NoDup (map (fun i => c ++ markers i) (seq 0 n)).
Proof.
  apply Finite.Injective_map_NoDup; [|apply seq_NoDup].
  intros i j Heq. apply (f_equal String.length) in Heq.
  rewrite !length_markers in Heq. lia.
Qed.

(** One test per recorded name and one more are enough: the name the
    loop ends with is free. *)
Lemma append_marker_while_free (names : list string) (c : string) :
  found names (append_marker_while (S (List.length names)) names c) = false.
Proof.
  destruct (append_marker_while_stops (S (List.length names)) names c)
    as [j [Hle [Heq [Hall Hfree]]]].
  rewrite Heq.
  destruct (Nat.eq_dec j (S (List.length names))) as [Hj|Hj].
  - exfalso. subst j.
    assert (Hlen : (List.length (map (fun i => c ++ markers i)
                      (seq 0 (S (List.length names)))) <= List.length names)%nat).
    { apply NoDup_incl_length; [apply marked_names_distinct|].
      intros s Hs. apply in_map_iff in Hs. destruct Hs as [i [Hi Hin]].
      apply in_seq in Hin. subst s. apply found_In. apply Hall. lia. }
    rewrite length_map, length_seq in Hlen. lia.
  - apply Hfree. lia.
Qed.

(** The name given to a thread whose own name is taken: the least
    number of markers, at least one, that makes it free. *)
Lemma unique_conversation_name_spec (names : list string) (chatpartner : string) :
  exists k,
    (1 <= k)%nat /\
    unique_conversation_name names chatpartner = chatpartner ++ markers k /\
    found names (chatpartner ++ markers k) = false /\
    (forall j, (1 <= j < k)%nat -> found names (chatpartner ++ markers j) = true).
Proof.
  unfold unique_conversation_name.
  pose proof (append_marker_while_free names (chatpartner ++ "(2)")) as Hfree.
  destruct (append_marker_while_stops (S (List.length names)) names (chatpartner ++ "(2)"))
    as [j [Hle [Heq [Hall _]]]].
  exists (S j). rewrite Heq in Hfree |- *. rewrite markers_shift in Hfree |- *.
  split; [lia|]. split; [reflexivity|]. split; [exact Hfree|].
  intros [|i] Hi; [lia|].
  rewrite <- markers_shift. apply Hall. lia.
Qed.

Lemma int_of_longlong_fits (z : Z) : fits_int z -> int_of_longlong z = z.
Proof.
  unfold fits_int, int_of_longlong. intros H.
  rewrite Z.mod_small; lia.
Qed.

Lemma int_of_longlong_range (z : Z) : fits_int (int_of_longlong z).
Proof.
  unfold fits_int, int_of_longlong.
  pose proof (Z.mod_pos_bound (z + 2147483648) 4294967296). lia.
Qed.

Lemma findIdxOf_from_absent (v : list Z) (x : Z) :
  forall i, 0 <= i -> (findIdxOf_from i v x = -1 <-> ~ In x v).
Proof.
  induction v as [|y v IH]; intros i Hi; simpl.
  - split; [intros _ []|reflexivity].
  - destruct (Z.eqb_spec y x) as [Heq|Hne].
    + split; [lia|]. intros Habs. exfalso. apply Habs. now left.
    + rewrite IH by lia. split.
      * intros Hnot [Hy|Hin]; [contradiction|now apply Hnot].
      * intros Hnot Hin. apply Hnot. now right.
Qed.

Lemma findIdxOf_absent (v : list Z) (x : Z) : findIdxOf v x = -1 <-> ~ In x v.
Proof. apply findIdxOf_from_absent. lia. Qed.

(** A value that is found is found at a position of the vector, and
    the element there is the value. *)
Lemma findIdxOf_from_present (v : list Z) (x : Z) :
  forall i, 0 <= i -> findIdxOf_from i v x <> -1 ->
    i <= findIdxOf_from i v x < i + Z.of_nat (List.length v) /\
    nth_error v (Z.to_nat (findIdxOf_from i v x - i)) = Some x.
Proof.
  induction v as [|y v IH]; intros i Hi Hne; simpl in *.
  - contradiction.
  - destruct (Z.eqb_spec y x) as [Heq|Hyx].
    + subst y. rewrite Z.sub_diag. simpl. split; [lia|reflexivity].
    + destruct (IH (i + 1) ltac:(lia) Hne) as [Hrange Hnth].
      split; [lia|].
      replace (findIdxOf_from (i + 1) v x - i) with (Z.succ (findIdxOf_from (i + 1) v x - (i + 1))) by lia.
      rewrite Z2Nat.inj_succ by lia. simpl. exact Hnth.
Qed.

Lemma findIdxOf_from_app (v v' : list Z) (x : Z) :
  forall i, In x v -> findIdxOf_from i (v ++ v') x = findIdxOf_from i v x.
Proof.
  induction v as [|y v IH]; intros i Hin; simpl in *.
  - contradiction.
  - destruct (Z.eqb_spec y x) as [Heq|Hyx]; [reflexivity|].
    destruct Hin as [Hy|Hin]; [contradiction|]. now apply IH.
Qed.

Lemma findIdxOf_from_last (v : list Z) (x : Z) :
  forall i, ~ In x v -> findIdxOf_from i (v ++ [x]) x = i + Z.of_nat (List.length v).
Proof.
  induction v as [|y v IH]; intros i Hin; simpl in *.
  - rewrite Z.eqb_refl. lia.
  - destruct (Z.eqb_spec y x) as [Heq|Hyx].
    + exfalso. apply Hin. now left.
    + rewrite IH; [lia|]. intros H. apply Hin. now right.
Qed.

(** What a lookup of a thread that is not yet recorded does: one entry
    is added at the end, with a name that was free. *)
Lemma resolve_conversation_new (ids : list Z) (names : list string)
    (tid : Z) (chatpartner : string) :
  findIdxOf ids tid = -1 ->
  exists name,
    resolve_conversation (ids, names) tid chatpartner =
      ((ids ++ [int_of_longlong tid], names ++ [name])%list, Z.of_nat (List.length names)) /\
    found names name = false /\
    (found names chatpartner = false -> name = chatpartner).
Proof.
  intros Hnew. unfold resolve_conversation. simpl fst. simpl snd.
  rewrite Hnew. simpl.
  assert (Hidx : forall n : string,
    Z.of_nat (List.length (names ++ [n])) - 1 = Z.of_nat (List.length names)).
  { intros n. rewrite length_app. simpl. lia. }
  destruct (found names chatpartner) eqn:Htaken; simpl.
  - exists (unique_conversation_name names chatpartner).
    rewrite Hidx. split; [reflexivity|]. split; [|discriminate].
    apply append_marker_while_free.
  - exists chatpartner. rewrite Hidx. split; [reflexivity|]. split; [assumption|reflexivity].
Qed.

(** A lookup of a recorded thread changes nothing. *)
Lemma resolve_conversation_known (c : Conversations) (tid : Z) (chatpartner : string) :
  findIdxOf (fst c) tid <> -1 ->
  resolve_conversation c tid chatpartner = (c, findIdxOf (fst c) tid).
Proof.
  intros Hknown. unfold resolve_conversation.
  destruct (Z.eqb_spec (findIdxOf (fst c) tid) (-1)); [contradiction|reflexivity].
Qed.

(** Entries are never revised or removed: the registry after a lookup
    is the registry before it, with at most one entry added. *)
Lemma resolve_conversation_extends (c : Conversations) (tid : Z) (chatpartner : string) :
  exists ids names,
    fst (resolve_conversation c tid chatpartner) =
      ((fst c ++ ids)%list, (snd c ++ names)%list) /\
    List.length ids = List.length names.
Proof.
  destruct c as [ids0 names0].
  destruct (Z.eq_dec (findIdxOf ids0 tid) (-1)) as [Hnew|Hknown].
  - destruct (resolve_conversation_new ids0 names0 tid chatpartner Hnew) as [name [Heq _]].
    rewrite Heq. exists [int_of_longlong tid], [name]. split; reflexivity.
  - rewrite resolve_conversation_known by assumption.
    exists [], []. simpl. rewrite !app_nil_r. split; reflexivity.
Qed.

(** No directory name is ever given twice. *)
Lemma resolve_conversation_names_distinct (c : Conversations) (tid : Z)
    (chatpartner : string) :
  NoDup (snd c) -> NoDup (snd (fst (resolve_conversation c tid chatpartner))).
Proof.
  destruct c as [ids0 names0]. simpl. intros Hnodup.
  destruct (Z.eq_dec (findIdxOf ids0 tid) (-1)) as [Hnew|Hknown].
  - destruct (resolve_conversation_new ids0 names0 tid chatpartner Hnew)
      as [name [Heq [Hfree _]]].
    rewrite Heq. simpl. apply NoDup_app.
    + assumption.
    + constructor; [intros []|constructor].
    + intros s Hin [Hs|[]]. subst s.
      apply found_In in Hin. congruence.
  - rewrite resolve_conversation_known by assumption. assumption.
Qed.

(** For a thread id in the range of [int], the name is kept for the
    rest of the run: a second lookup finds the entry of the first. *)
Lemma resolve_conversation_stable (c : Conversations) (tid : Z)
    (chatpartner drift : string) :
  fits_int tid ->
  List.length (fst c) = List.length (snd c) ->
  let '(c', idx) := resolve_conversation c tid chatpartner in
  resolve_conversation c' tid drift = (c', idx).
Proof.
  intros Hfits Hlen. destruct c as [ids0 names0]. simpl in Hlen.
  destruct (Z.eq_dec (findIdxOf ids0 tid) (-1)) as [Hnew|Hknown].
  - destruct (resolve_conversation_new ids0 names0 tid chatpartner Hnew) as [name [Heq _]].
    rewrite Heq. rewrite int_of_longlong_fits by assumption.
    assert (Hidx : findIdxOf (ids0 ++ [tid]) tid = Z.of_nat (List.length names0)).
    { unfold findIdxOf. rewrite findIdxOf_from_last.
      - rewrite Hlen. lia.
      - now apply findIdxOf_absent. }
    rewrite resolve_conversation_known; simpl fst; rewrite Hidx; [reflexivity|lia].
  - rewrite resolve_conversation_known by assumption.
    now rewrite resolve_conversation_known by assumption.
Qed.

(** With ids in the range of [int], no id is recorded twice. *)
Lemma resolve_conversation_ids_distinct (c : Conversations) (tid : Z)
    (chatpartner : string) :
  fits_int tid ->
  NoDup (fst c) -> NoDup (fst (fst (resolve_conversation c tid chatpartner))).
Proof.
  destruct c as [ids0 names0]. simpl. intros Hfits Hnodup.
  destruct (Z.eq_dec (findIdxOf ids0 tid) (-1)) as [Hnew|Hknown].
  - destruct (resolve_conversation_new ids0 names0 tid chatpartner Hnew) as [name [Heq _]].
    rewrite Heq. simpl. rewrite int_of_longlong_fits by assumption.
    apply NoDup_app.
    + assumption.
    + constructor; [intros []|constructor].
    + intros x Hin [Hx|[]]. subst x. now apply findIdxOf_absent in Hnew.
  - rewrite resolve_conversation_known by assumption. assumption.
Qed.

(** With thread ids in the range of [int] the registry stays a
    one-to-one pairing of ids and names through every lookup. *)
Lemma resolve_conversation_ok (c : Conversations) (tid : Z) (chatpartner : string) :
  fits_int tid -> registry_ok c ->
  registry_ok (fst (resolve_conversation c tid chatpartner)).
Proof.
  intros Hfits [Hlen [Hids Hnames]]. split; [|split].
  - destruct (resolve_conversation_extends c tid chatpartner) as [ids [names [Heq Hsame]]].
    rewrite Heq. simpl. rewrite !length_app. lia.
  - now apply resolve_conversation_ids_distinct.
  - now apply resolve_conversation_names_distinct.
Qed.

Lemma resolve_all_ok (lookups : list (Z * string)) :
  forall c,
    Forall (fun lookup => fits_int (fst lookup)) lookups ->
    registry_ok c -> registry_ok (resolve_all c lookups).
Proof.
  induction lookups as [|lookup rest IH]; intros c Hfit Hok; [exact Hok|].
  inversion Hfit; subst. apply IH; [assumption|].
  now apply resolve_conversation_ok.
Qed.

(** The marker rule, for a thread the registry does not find.  When
    such a thread comes with a name an
    earlier thread owns, the marker ["(2)"] is appended, once and then
    again for as long as a recorded entry owns the result ([k] is the
    least number of markers, at least one, that gives a free name), and
    the thread is recorded under that name.  In particular, when the
    registry holds one thread [t1] under the name, the new thread gets
    the name followed by one marker: two threads that both resolve to
    ["Alice"] are given ["Alice"] and ["Alice(2)"], and every later
    lookup of either thread, whatever name it comes with, returns the
    thread's own folder. *)
Lemma taken_name_gets_markers (ids : list Z) (names : list string)
    (tid : Z) (chatpartner : string) :
  findIdxOf ids tid = -1 ->
  found names chatpartner = true ->
  exists k,
    (1 <= k)%nat /\
    resolve_conversation (ids, names) tid chatpartner =
      ((ids ++ [int_of_longlong tid], names ++ [(chatpartner ++ markers k)%string])%list,
       Z.of_nat (List.length names)) /\
    found names (chatpartner ++ markers k) = false /\
    (forall j, (1 <= j < k)%nat -> found names (chatpartner ++ markers j) = true) /\
    (forall t1, ids = [t1] -> names = [chatpartner] -> fits_int t1 -> fits_int tid ->
       let both := ([t1; tid], [chatpartner; chatpartner ++ "(2)"]) in
       resolve_conversation no_conversations t1 chatpartner = (([t1], [chatpartner]), 0) /\
       resolve_conversation ([t1], [chatpartner]) tid chatpartner = (both, 1) /\
       conversation_name both 0 = chatpartner /\
       conversation_name both 1 = chatpartner ++ "(2)" /\
       forall drift,
         resolve_conversation both t1 drift = (both, 0) /\
         resolve_conversation both tid drift = (both, 1)).
Proof.
  intros Hnew Htaken.
  destruct (unique_conversation_name_spec names chatpartner)
    as [k [Hk [Hname [Hfree Hleast]]]].
  assert (Hres : resolve_conversation (ids, names) tid chatpartner =
      ((ids ++ [int_of_longlong tid], names ++ [(chatpartner ++ markers k)%string])%list,
       Z.of_nat (List.length names))).
  { unfold resolve_conversation. simpl fst. simpl snd.
    rewrite Hnew, Htaken. simpl. rewrite Hname.
    rewrite length_app. simpl. f_equal. lia. }
  exists k. split; [exact Hk|]. split; [exact Hres|].
  split; [exact Hfree|]. split; [exact Hleast|].
  intros t1 Hids Hnames Hfit1 Hfit2 both. subst ids names.
  assert (Hk1 : k = 1%nat).
  { destruct (Nat.eq_dec k 1) as [|Hne]; [assumption|]. exfalso.
    assert (Hone : found [chatpartner] (chatpartner ++ markers 1) = true)
      by (apply Hleast; lia).
    apply found_In in Hone. destruct Hone as [Heq|[]].
    apply (f_equal String.length) in Heq. rewrite length_markers in Heq. lia. }
  subst k.
  assert (Hdiff : t1 <> tid).
  { intros Heq. subst tid. apply findIdxOf_absent in Hnew. apply Hnew. now left. }
  split.
  { unfold resolve_conversation. simpl.
    now rewrite int_of_longlong_fits by assumption. }
  split.
  { rewrite Hres. rewrite int_of_longlong_fits by assumption. reflexivity. }
  split; [reflexivity|]. split; [reflexivity|].
  intros drift. split.
  - rewrite resolve_conversation_known; unfold both, findIdxOf; simpl;
      rewrite Z.eqb_refl; [reflexivity|lia].
  - apply Z.eqb_neq in Hdiff.
    rewrite resolve_conversation_known; unfold both, findIdxOf; simpl;
      rewrite Hdiff, Z.eqb_refl; [reflexivity|lia].
Qed.

Lemma taken_name_gets_markers_witness :
  exists k,
    (1 <= k)%nat /\
    resolve_conversation ([1], ["Alice"]) 2 "Alice" =
      (([1] ++ [int_of_longlong 2], ["Alice"] ++ [("Alice" ++ markers k)%string])%list,
       Z.of_nat (List.length ["Alice"])) /\
    found ["Alice"] ("Alice" ++ markers k) = false /\
    (forall j, (1 <= j < k)%nat -> found ["Alice"] ("Alice" ++ markers j) = true) /\
    (forall t1, [1] = [t1] -> ["Alice"] = ["Alice"] -> fits_int t1 -> fits_int 2 ->
       let both := ([t1; 2], ["Alice"; "Alice" ++ "(2)"]) in
       resolve_conversation no_conversations t1 "Alice" = (([t1], ["Alice"]), 0) /\
       resolve_conversation ([t1], ["Alice"]) 2 "Alice" = (both, 1) /\
       conversation_name both 0 = "Alice" /\
       conversation_name both 1 = "Alice" ++ "(2)" /\
       forall drift,
         resolve_conversation both t1 drift = (both, 0) /\
         resolve_conversation both 2 drift = (both, 1)).
Proof.
  apply (taken_name_gets_markers [1] ["Alice"] 2 "Alice"); reflexivity.
Defined.

(** Scenario C on thread ids 1 and 2. *)
Example alice_twice :
  let '(c1, i1) := resolve_conversation no_conversations 1 "Alice" in
  let '(c2, i2) := resolve_conversation c1 2 "Alice" in
  conversation_name c1 i1 = "Alice" /\ conversation_name c2 i2 = "Alice(2)" /\
  c2 = ([1; 2], ["Alice"; "Alice(2)"]).
Proof. vm_compute. repeat split. Qed.

(** C6. The registry keeps thread ids in a vector of [int], while a
    thread id is a [long long int].  Thread 4294967301 is recorded as 5;
    thread 5, met next, finds that entry and is sent to the same folder:
    two distinct thread ids share one directory name.  In a run over two
    attachments of threads 4294967301 and 5 both files land in
    [out/Alice/sent]. *)
Theorem wide_thread_ids_break_registry :
  (let '(c1, i1) := resolve_conversation no_conversations 4294967301 "Alice" in
   let '(c2, i2) := resolve_conversation c1 5 "Alice" in
   c1 = ([5], ["Alice"]) /\ c2 = c1 /\
   conversation_name c1 i1 = "Alice" /\ conversation_name c2 i2 = "Alice") /\
  (let store := fun (_ : string) (rid _ : Z) =>
       Some [sample_row 0 (Some (1672574400000 + rid * 1000))
                        (if rid =? 1 then 4294967301 else 5) "Alice"] in
   let run := dumpMedia (sample_world full_tables store true true) "out" [] [] false
                (sample_state [sample_frame 1 10; sample_frame 2 20]) in
   fst run = true /\
   conversations (snd run) = ([5], ["Alice"]) /\
   fs (snd run) = ["out/Alice/sent/signal-2023-01-01-120002.png";
                   "out/Alice/sent/signal-2023-01-01-120001.png";
                   "out/Alice/sent"; "out/Alice"; "out"]).
Proof. vm_compute. repeat split. Qed.

(** C7. A thread whose id the registry has not seen can still be
    taken for a recorded one, because ids are recorded as [int]: after
    thread 4294967301 was recorded (as 5) under ["Alice"], thread 5,
    new and also resolving to ["Alice"], a name the other thread owns,
    is given no marker but the folder ["Alice"] itself.  A run over one
    attachment of each thread makes no folder [Alice(2)]: both files
    land in [out/Alice/sent].  With thread ids 1 and 2 the same run
    makes [Alice] and [Alice(2)], one file in each. *)
Theorem new_thread_takes_owned_name :
  let store := fun first second : Z => fun (_ : string) (rid _ : Z) =>
       Some [sample_row 0 (Some (1672574400000 + rid * 1000))
                        (if rid =? 1 then first else second) "Alice"] in
  let run := fun first second : Z =>
       dumpMedia (sample_world full_tables (store first second) true true) "out" [] [] false
         (sample_state [sample_frame 1 10; sample_frame 2 20]) in
  4294967301 <> 5 /\
  findIdxOf (fst (fst (resolve_conversation no_conversations 4294967301 "Alice"))) 5 = 0 /\
  found (snd (fst (resolve_conversation no_conversations 4294967301 "Alice"))) "Alice" = true /\
  (let '(c1, _) := resolve_conversation no_conversations 4294967301 "Alice" in
   let '(c2, i2) := resolve_conversation c1 5 "Alice" in
   conversation_name c2 i2 = "Alice" /\ snd c2 = ["Alice"]) /\
  fst (run 4294967301 5) = true /\
  fs (snd (run 4294967301 5)) =
    ["out/Alice/sent/signal-2023-01-01-120002.png";
     "out/Alice/sent/signal-2023-01-01-120001.png";
     "out/Alice/sent"; "out/Alice"; "out"] /\
  fs (snd (run 1 2)) =
    ["out/Alice(2)/sent/signal-2023-01-01-120002.png";
     "out/Alice(2)/sent"; "out/Alice(2)";
     "out/Alice/sent/signal-2023-01-01-120001.png";
     "out/Alice/sent"; "out/Alice"; "out"].
Proof. vm_compute. repeat split. discriminate. Qed.

(** ** The date filter *)

Section DateFilter.

Context {FS : Type} (w : World FS).

(** One round of the loop on a pair that is used. *)
Lemma date_clause_loop_kept (range : string * string) (rest : list (string * string))
    (clause : string) (logged : list LogEntry) :
  kept w range = true ->
  date_clause_loop w (range :: rest) clause logged =
  date_clause_loop w rest
    (closing rest (clause ++ opening clause ++ kept_text w range))
    (logged ++ use_entries w range)%list.
Proof.
  destruct range as [first second]. unfold kept, kept_text, use_entries, opening.
  simpl fst. simpl snd. intros Hkept. simpl date_clause_loop.
  destruct (dateToMSecsSinceEpoch w second) as [endrange needrounding] eqn:Hend.
  simpl fst in *. apply negb_true_iff in Hkept. rewrite Hkept.
  unfold closing, range_text.
  destruct (d_verbose w); [|rewrite app_nil_r]; destruct rest; reflexivity.
Qed.

(** One round of the loop on a pair that is discarded. *)
Lemma date_clause_loop_skipped (range : string * string) (rest : list (string * string))
    (clause : string) (logged : list LogEntry) :
  kept w range = false ->
  date_clause_loop w (range :: rest) clause logged =
  date_clause_loop w rest clause (logged ++ skip_entries w range)%list.
Proof.
  destruct range as [first second]. unfold kept, skip_entries.
  simpl fst. simpl snd. intros Hkept. simpl date_clause_loop.
  destruct (dateToMSecsSinceEpoch w second) as [endrange needrounding] eqn:Hend.
  simpl fst in *. apply negb_false_iff in Hkept. rewrite Hkept. reflexivity.
Qed.

End DateFilter.

Lemma date_only_raises_flag (s : string) :
  date_only s = true -> snd (spec_dateToMSecsSinceEpoch s) = true.
Proof.
  unfold date_only, spec_dateToMSecsSinceEpoch. intros H.
  apply andb_true_iff in H. destruct H as [Hlen Hdate]. rewrite Hlen.
  destruct (parse_date s); [reflexivity|discriminate].
Qed.

Lemma date_and_time_leaves_flag (s : string) :
  date_and_time s = true -> snd (spec_dateToMSecsSinceEpoch s) = false.
Proof.
  unfold date_and_time, spec_dateToMSecsSinceEpoch. intros H.
  apply andb_true_iff in H. destruct H as [Hlen Hdate].
  apply Nat.eqb_eq in Hlen. rewrite Hlen. simpl.
  destruct (parse_date s); [|reflexivity].
  destruct (parse_time s); reflexivity.
Qed.

Lemma parsed_bound_kind (s : string) :
  fst (spec_dateToMSecsSinceEpoch s) <> -1 ->
  date_only s = true \/ date_and_time s = true.
Proof.
  unfold date_only, date_and_time, spec_dateToMSecsSinceEpoch.
  destruct (Nat.eqb (String.length s) 10) eqn:H10.
  - destruct (parse_date s); simpl; [now left|congruence].
  - destruct (Nat.eqb (String.length s) 19) eqn:H19.
    + destruct (parse_date s); simpl; [|congruence].
      destruct (parse_time s); simpl; [now right|congruence].
    + simpl. congruence.
Qed.

(** Scenario E, with the parser of the design. *)
Example scenario_E :
  let w := sample_world full_tables (fun _ _ _ => Some []) true true in
  date_clause w ["2023-01-01"; "2023-01-01 12:00:00"] =
    (" AND (date_received BETWEEN 1672531200000 AND 1672574400000)", []) /\
  date_clause w ["2023-01-01"; "2023-01-01"] =
    (" AND (date_received BETWEEN 1672531200000 AND 1672531200999)", []).
Proof. vm_compute. split; reflexivity. Qed.

Section DateFilterText.

Context {FS : Type} (w : World FS).

Lemma empty_append (a b : string) : empty (a ++ b) = empty a && empty b.
Proof. destruct a; reflexivity. Qed.

Lemma last_kept_cons (range next : string * string) (rest : list (string * string)) :
  last_kept w (range :: next :: rest) = last_kept w (next :: rest).
Proof. reflexivity. Qed.

(** The text the loop adds to a clause that has been opened: every
    pair that is used, each after [" OR "], and the closing parenthesis
    when the pair at the last position is used. *)
Lemma date_clause_loop_text_from (ranges : list (string * string)) :
  forall clause logged, empty clause = false ->
    fst (date_clause_loop w ranges clause logged) =
    clause ++ or_join (map (kept_text w) (filter (kept w) ranges)) ++
    (if last_kept w ranges then ")" else "").
Proof.
  induction ranges as [|range rest IH]; intros clause logged Hclause.
  - cbn [date_clause_loop fst filter map or_join last_kept].
    text_eq.
  - destruct (kept w range) eqn:Hkept.
    + rewrite date_clause_loop_kept by assumption.
      unfold opening. rewrite Hclause.
      cbn [filter]. rewrite Hkept. cbn [map or_join].
      destruct rest as [|next rest].
      * cbn [closing date_clause_loop fst filter map or_join last_kept].
        rewrite Hkept. text_eq.
      * cbn [closing]. rewrite IH.
        -- rewrite last_kept_cons. text_eq.
        -- rewrite empty_append, Hclause. reflexivity.
    + rewrite date_clause_loop_skipped by assumption.
      cbn [filter]. rewrite Hkept.
      destruct rest as [|next rest].
      * cbn [date_clause_loop fst filter map or_join last_kept].
        rewrite Hkept. text_eq.
      * rewrite IH by assumption. now rewrite last_kept_cons.
Qed.

(** The date filter: nothing when no pair is used; otherwise
    [" AND ("], the pairs that are used joined by [" OR "], and the
    closing parenthesis when the pair at the last position is used. *)
Lemma date_clause_loop_text (ranges : list (string * string)) :
  forall logged,
    fst (date_clause_loop w ranges "" logged) =
    match filter (kept w) ranges with
    | [] => ""
    | range :: used =>
        " AND (" ++ kept_text w range ++ or_join (map (kept_text w) used) ++
        (if last_kept w ranges then ")" else "")
    end.
Proof.
  induction ranges as [|range rest IH]; intros logged.
  - reflexivity.
  - destruct (kept w range) eqn:Hkept.
    + rewrite date_clause_loop_kept by assumption.
      cbn [filter]. rewrite Hkept. unfold opening. cbn [empty].
      destruct rest as [|next rest].
      * cbn [closing date_clause_loop fst filter map or_join last_kept].
        rewrite Hkept. text_eq.
      * cbn [closing]. rewrite date_clause_loop_text_from by reflexivity.
        rewrite last_kept_cons. text_eq.
    + rewrite date_clause_loop_skipped by assumption.
      cbn [filter]. rewrite Hkept. rewrite IH.
      destruct rest as [|next rest].
      * reflexivity.
      * now rewrite last_kept_cons.
Qed.

(** What the loop logs: for every pair that is discarded, in order, an
    error that quotes both of its strings and a line with the two
    parsed values; for a pair that is used, a message when verbose. *)
Lemma date_clause_loop_log (ranges : list (string * string)) :
  forall clause logged,
    snd (date_clause_loop w ranges clause logged) =
    (logged ++
     flat_map (fun range => if kept w range then use_entries w range
                            else skip_entries w range) ranges)%list.
Proof.
  induction ranges as [|range rest IH]; intros clause logged.
  - cbn [date_clause_loop snd flat_map]. now rewrite app_nil_r.
  - cbn [flat_map]. destruct (kept w range) eqn:Hkept.
    + rewrite date_clause_loop_kept by assumption.
      rewrite IH. now rewrite <- app_assoc.
    + rewrite date_clause_loop_skipped by assumption.
      rewrite IH. now rewrite <- app_assoc.
Qed.

End DateFilterText.

(** ** Parentheses *)

Lemma paren_depth_app (a b : string) :
  forall d,
    paren_depth (a ++ b) d =
    match paren_depth a d with
    | Some d' => paren_depth b d'
    | None => None
    end.
Proof.
  induction a as [|c a IH]; intros d; simpl; [reflexivity|].
  destruct (Ascii.eqb c "("); [apply IH|].
  destruct (Ascii.eqb c ")"); [|apply IH].
  destruct d; [reflexivity|apply IH].
Qed.

Lemma paren_free_app (a b : string) :
  paren_free a -> paren_free b -> paren_free (a ++ b).
Proof. intros Ha Hb d. rewrite paren_depth_app, Ha. apply Hb. Qed.

Lemma paren_free_digits (u : Decimal.uint) : paren_free (NilEmpty.string_of_uint u).
Proof. induction u; intros d; simpl; try reflexivity; apply IHu. Qed.

Lemma paren_free_toString (z : Z) : paren_free (toString z).
Proof.
  unfold toString, NilZero.string_of_int, NilZero.string_of_uint.
  destruct (Z.to_int z) as [u|u]; destruct u; intros d;
    try reflexivity; simpl; apply paren_free_digits.
Qed.

Lemma paren_free_range_text (startrange endrange : Z) :
  paren_free (range_text startrange endrange).
Proof.
  unfold range_text.
  apply paren_free_app; [intros d; reflexivity|].
  apply paren_free_app; [apply paren_free_toString|].
  apply paren_free_app; [intros d; reflexivity|apply paren_free_toString].
Qed.

Lemma paren_free_kept_text {FS : Type} (w : World FS) (range : string * string) :
  paren_free (kept_text w range).
Proof.
  unfold kept_text. destruct (dateToMSecsSinceEpoch w (snd range)).
  apply paren_free_range_text.
Qed.

Lemma paren_free_or_join {FS : Type} (w : World FS) (ranges : list (string * string)) :
  paren_free (or_join (map (kept_text w) ranges)).
Proof.
  induction ranges as [|range rest IH]; [intros d; reflexivity|].
  cbn [map or_join].
  apply paren_free_app; [intros d; reflexivity|].
  apply paren_free_app; [apply paren_free_kept_text|apply IH].
Qed.

(** The parentheses of the date filter pair up exactly when no pair is
    used or the pair at the last position is. *)
Lemma date_filter_balanced {FS : Type} (w : World FS)
    (ranges : list (string * string)) (logged : list LogEntry) :
  parens_balanced (fst (date_clause_loop w ranges "" logged)) =
  match filter (kept w) ranges with
  | [] => true
  | _ => last_kept w ranges
  end.
Proof.
  rewrite date_clause_loop_text.
  destruct (filter (kept w) ranges) as [|range used]; [reflexivity|].
  unfold parens_balanced.
  change (" AND (" ++ kept_text w range ++ or_join (map (kept_text w) used) ++
          (if last_kept w ranges then ")" else ""))
    with (" AND " ++ "(" ++ kept_text w range ++ or_join (map (kept_text w) used) ++
          (if last_kept w ranges then ")" else "")).
  rewrite paren_depth_app. cbn [paren_depth append Ascii.eqb Bool.eqb].
  rewrite paren_depth_app, paren_free_kept_text.
  rewrite paren_depth_app, paren_free_or_join.
  destruct (last_kept w ranges); reflexivity.
Qed.

Lemma spec_flag_is_date_only (s : string) :
  snd (spec_dateToMSecsSinceEpoch s) = date_only s.
Proof.
  unfold date_only, spec_dateToMSecsSinceEpoch.
  destruct (Nat.eqb (String.length s) 10).
  - destruct (parse_date s); reflexivity.
  - destruct (Nat.eqb (String.length s) 19); [|reflexivity].
    destruct (parse_date s); [|reflexivity]. destruct (parse_time s); reflexivity.
Qed.

Lemma kept_text_spec {FS : Type} (w : World FS) (range : string * string) :
  dateToMSecsSinceEpoch w = spec_dateToMSecsSinceEpoch ->
  kept_text w range = spec_range_text range.
Proof.
  intros Hspec. unfold kept_text, spec_range_text. rewrite Hspec.
  rewrite <- spec_flag_is_date_only.
  destruct (spec_dateToMSecsSinceEpoch (snd range)). reflexivity.
Qed.

(** C5. With the rounding flag raised as the design words it (for an
    end bound given as a date only), the statement that is executed
    ends, for every list of tokens, with the pairs that are used, each
    as [date_received BETWEEN start AND end] where [end] is the parsed
    end bound plus 999 when the end bound is date-only and the parsed
    end bound itself when it carries its time of day; the end bound of
    every pair that is used is of one of the two kinds. *)
Theorem end_bounds_in_the_filter {FS : Type} (w : World FS)
    (daterangelist : list string) (threads : list Z) :
  dateToMSecsSinceEpoch w = spec_dateToMSecsSinceEpoch ->
  fst (lookup_query w daterangelist threads) =
    ((if fullbackup w then full_query w else minimal_query) ++ thread_clause threads) ++
    match filter (kept w) (dateranges daterangelist) with
    | [] => ""
    | range :: used =>
        " AND (" ++ spec_range_text range ++ or_join (map spec_range_text used) ++
        (if last_kept w (dateranges daterangelist) then ")" else "")
    end /\
  forall range, In range (filter (kept w) (dateranges daterangelist)) ->
    let startrange := fst (spec_dateToMSecsSinceEpoch (fst range)) in
    let endrange := fst (spec_dateToMSecsSinceEpoch (snd range)) in
    (date_only (snd range) = true /\
     spec_range_text range =
       "date_received BETWEEN " ++ toString startrange ++ " AND " ++ toString (endrange + 999))
    \/
    (date_and_time (snd range) = true /\
     spec_range_text range =
       "date_received BETWEEN " ++ toString startrange ++ " AND " ++ toString endrange).
Proof.
  intros Hspec. split.
  - unfold lookup_query.
    destruct (date_clause w daterangelist) as [datewhereclause logged] eqn:Hclause.
    cbn [fst]. f_equal.
    replace datewhereclause with (fst (date_clause w daterangelist)) by now rewrite Hclause.
    unfold date_clause. destruct daterangelist as [|token tokens]; [reflexivity|].
    rewrite date_clause_loop_text.
    destruct (filter (kept w) (dateranges (token :: tokens))) as [|range used];
      [reflexivity|].
    rewrite kept_text_spec by assumption.
    rewrite (map_ext (kept_text w) spec_range_text); [reflexivity|].
    intros r. now apply kept_text_spec.
  - intros range Hin startrange endrange.
    apply filter_In in Hin. destruct Hin as [_ Hkept].
    assert (Hparsed : fst (spec_dateToMSecsSinceEpoch (snd range)) <> -1).
    { unfold kept in Hkept. rewrite Hspec in Hkept.
      apply negb_true_iff in Hkept. apply orb_false_iff in Hkept.
      destruct Hkept as [Hkept _]. apply orb_false_iff in Hkept.
      destruct Hkept as [_ Hne]. now apply Z.eqb_neq in Hne. }
    unfold spec_range_text, range_text. fold startrange endrange.
    destruct (date_only (snd range)) eqn:Honly.
    + left. split; reflexivity.
    + right. split; [|reflexivity].
      destruct (parsed_bound_kind (snd range) Hparsed) as [H|H]; [congruence|exact H].
Qed.

Lemma end_bounds_in_the_filter_witness :
  let w := sample_world full_tables (fun _ _ _ => Some []) true true in
  let tokens := ["2023-01-01"; "2023-01-01"; "2023-01-01"; "2023-01-01 12:00:00"] in
  fst (lookup_query w tokens []) =
    "SELECT part.mid, part.ct, part.file_name, part.display_order, mms.date_received, mms.msg_box, mms.thread_id, thread.thread_recipient_id, COALESCE(groups.title,recipient.system_display_name, recipient.profile_joined_name, recipient.signal_profile_name) AS 'chatpartner' FROM part LEFT JOIN mms ON part.mid == mms._id LEFT JOIN thread ON mms.thread_id == thread._id LEFT JOIN recipient ON thread.thread_recipient_id == recipient._id LEFT JOIN groups ON recipient.group_id == groups.group_id WHERE part._id == ? AND part.unique_id == ? AND (date_received BETWEEN 1672531200000 AND 1672531200999 OR date_received BETWEEN 1672531200000 AND 1672574400000)" /\
  forall range, In range (filter (kept w) (dateranges tokens)) ->
    let startrange := fst (spec_dateToMSecsSinceEpoch (fst range)) in
    let endrange := fst (spec_dateToMSecsSinceEpoch (snd range)) in
    (date_only (snd range) = true /\
     spec_range_text range =
       "date_received BETWEEN " ++ toString startrange ++ " AND " ++ toString (endrange + 999))
    \/
    (date_and_time (snd range) = true /\
     spec_range_text range =
       "date_received BETWEEN " ++ toString startrange ++ " AND " ++ toString endrange).
Proof.
  exact (end_bounds_in_the_filter
           (sample_world full_tables (fun _ _ _ => Some []) true true)
           ["2023-01-01"; "2023-01-01"; "2023-01-01"; "2023-01-01 12:00:00"] [] eq_refl).
Defined.

(** C8. A pair that cannot be used is discarded with an error naming
    its two strings, but the pairs that remain are not unaffected: the
    parenthesis that closes the filter is written only in the round of
    the last pair, which a discarded pair leaves early.  With a good
    pair followed by a bad one the filter stays open, the statement no
    longer has its parentheses paired and a store that refuses such a
    statement fails the run; the same two pairs in the other order, and
    the good pair alone, give a filter that is closed. *)
Theorem discarded_last_pair_leaves_filter_open :
  let rows := fun rid _ : Z => [sample_row 0 (Some 1672574400123) rid "Alice"] in
  let w := sample_world full_tables (checking_store rows) true true in
  let st := sample_state [sample_frame 1 10] in
  date_clause w ["2023-01-01"; "2023-01-02"; "garbage"; "2023-02-01"] =
    (" AND (date_received BETWEEN 1672531200000 AND 1672617600999",
     [Error "Skipping range: 'garbage - 2023-02-01'. Failed to parse or invalid range.";
      ErrorIndent "-1 1675209600000"]) /\
  parens_balanced
    (fst (lookup_query w ["2023-01-01"; "2023-01-02"; "garbage"; "2023-02-01"] [])) = false /\
  fst (dumpMedia w "out" ["2023-01-01"; "2023-01-02"; "garbage"; "2023-02-01"] [] false st)
    = false /\
  date_clause w ["garbage"; "2023-02-01"; "2023-01-01"; "2023-01-02"] =
    (" AND (date_received BETWEEN 1672531200000 AND 1672617600999)",
     [Error "Skipping range: 'garbage - 2023-02-01'. Failed to parse or invalid range.";
      ErrorIndent "-1 1675209600000"]) /\
  date_clause w ["2023-01-01"; "2023-01-02"] =
    (" AND (date_received BETWEEN 1672531200000 AND 1672617600999)", []) /\
  fst (dumpMedia w "out" ["2023-01-01"; "2023-01-02"] [] false st) = true.
Proof. vm_compute. repeat split. Qed.

(** C10. With an odd number of date tokens no pair is formed, the
    statement is the one built without date tokens and building it logs
    no error or warning; but the list is not empty, so an attachment
    whose lookup returns no row leaves the loop body as excluded by a
    filter, with nothing logged, where the same lookup without any
    tokens or threads is reported. *)
Theorem odd_date_list_adds_no_filter {FS : Type} (w : World FS)
    (daterangelist : list string) (threads : list Z) :
  Z.of_nat (List.length daterangelist) mod 2 = 1 ->
  dateranges daterangelist = [] /\
  date_clause w daterangelist = ("", []) /\
  lookup_query w daterangelist threads = lookup_query w [] threads /\
  (forall dir i a st,
     handle_results w dir daterangelist threads i a [] st =
     (Continue ExcludedByFilter, st)) /\
  (forall dir i a st,
     handle_results w dir [] [] i a [] st =
     (Continue UnexpectedRows,
      add_log [Error ("Unexpected number of results: 0 (rowid: " ++ toString (rowId a) ++
                      ", uniqueid: " ++ toString (attachmentId a) ++ ")")] st)).
Proof.
  intros Hodd.
  assert (Hranges : dateranges daterangelist = []).
  { unfold dateranges. rewrite Hodd. reflexivity. }
  assert (Hclause : date_clause w daterangelist = ("", [])).
  { unfold date_clause. rewrite Hranges. destruct daterangelist; reflexivity. }
  split; [exact Hranges|]. split; [exact Hclause|]. split.
  { unfold lookup_query. rewrite Hclause. reflexivity. }
  split.
  - intros dir i a st. unfold handle_results.
    destruct daterangelist as [|token tokens]; [discriminate Hodd|].
    cbn [List.length Nat.eqb is_empty negb andb orb].
    rewrite orb_true_r. reflexivity.
  - intros dir i a st. reflexivity.
Qed.

Lemma odd_date_list_adds_no_filter_witness :
  let w := sample_world full_tables (fun _ _ _ => Some []) true true in
  dateranges ["2023-01-01"; "2023-01-02"; "2023-01-03"] = [] /\
  date_clause w ["2023-01-01"; "2023-01-02"; "2023-01-03"] = ("", []) /\
  lookup_query w ["2023-01-01"; "2023-01-02"; "2023-01-03"] [] = lookup_query w [] [] /\
  (forall dir i a st,
     handle_results w dir ["2023-01-01"; "2023-01-02"; "2023-01-03"] [] i a [] st =
     (Continue ExcludedByFilter, st)) /\
  (forall dir i a st,
     handle_results w dir [] [] i a [] st =
     (Continue UnexpectedRows,
      add_log [Error ("Unexpected number of results: 0 (rowid: " ++ toString (rowId a) ++
                      ", uniqueid: " ++ toString (attachmentId a) ++ ")")] st)).
Proof.
  exact (odd_date_list_adds_no_filter
           (sample_world full_tables (fun _ _ _ => Some []) true true)
           ["2023-01-01"; "2023-01-02"; "2023-01-03"] [] eq_refl).
Defined.

(** In minimal mode the statement is the one of line 63 followed by
    whatever the filters add. *)
Lemma minimal_lookup_text {FS : Type} (w : World FS)
    (daterangelist : list string) (threads : list Z) :
  fullbackup w = false ->
  fst (lookup_query w daterangelist threads) =
  (minimal_query ++ thread_clause threads) ++ fst (date_clause w daterangelist).
Proof.
  intros Hminimal. unfold lookup_query. rewrite Hminimal.
  destruct (date_clause w daterangelist). reflexivity.
Qed.

(** C1. On a database without the tables of the full projection the
    statement selects from [part] alone, and a thread allow-list still
    adds a test on [thread._id]: the statement names a table it does
    not join.  A store that refuses such a statement fails the lookup
    and with it the whole run, which succeeds without the allow-list.
    On a complete database the allow-list is accepted, and a date list
    whose last pair is discarded leaves the statement with an open
    parenthesis. *)
Theorem minimal_lookup_with_thread_filter_is_refused :
  let rows := fun rid _ : Z => [sample_row 0 (Some 1672574400123) rid "Alice"] in
  let minimal := sample_world ["part"] (checking_store rows) true true in
  let full := sample_world full_tables (checking_store rows) true true in
  let st := sample_state [sample_frame 1 10] in
  fullbackup minimal = false /\
  fst (lookup_query minimal [] [5]) =
    "SELECT part.mid, part.ct, part.file_name, part.display_order FROM part WHERE part._id == ? AND part.unique_id == ? AND thread._id IN (5)" /\
  thread_unjoined (fst (lookup_query minimal [] [5])) = true /\
  well_formed_lookup (fst (lookup_query minimal [] [5])) = false /\
  fst (dumpMedia minimal "out" [] [5] false st) = false /\
  fst (dumpMedia minimal "out" [] [] false st) = true /\
  well_formed_lookup (fst (lookup_query full [] [5])) = true /\
  fst (dumpMedia full "out" [] [5] false st) = true /\
  well_formed_lookup
    (fst (lookup_query full ["2023-01-01"; "2023-01-02"; "garbage"; "2023-02-01"] [5])) = false.
Proof. vm_compute. repeat split. Qed.

(** ** The loop *)

Section Loop.

Context {FS : Type} (w : World FS).

Lemma run_lookup_eq (daterangelist : list string) (threads : list Z)
    (i : nat) (a : AttachmentFrame) (st : State FS) :
  run_lookup w daterangelist threads (Z.of_nat i + 1) a st =
  (match exec w (fst (lookup_query w daterangelist threads)) (rowId a) (attachmentId a) with
   | Some results => Next results
   | None => ReturnFalse
   end,
   after_lookup w daterangelist threads i st).
Proof.
  unfold run_lookup, after_lookup, add_log, bind, logger, ret, return_false.
  destruct (lookup_query w daterangelist threads) as [query logged].
  cbn [fst snd conversations fs log d_attachments].
  rewrite <- app_assoc. cbn [app].
  destruct (exec w query (rowId a) (attachmentId a)); reflexivity.
Qed.

Lemma process_attachment_eq (dir : string) (daterangelist : list string)
    (threads : list Z) (i : nat) (a : AttachmentFrame) (st : State FS) :
  process_attachment w dir daterangelist threads i a st =
  match exec w (fst (lookup_query w daterangelist threads)) (rowId a) (attachmentId a) with
  | Some results =>
      handle_results w dir daterangelist threads i a results
        (after_lookup w daterangelist threads i st)
  | None => (ReturnFalse, after_lookup w daterangelist threads i st)
  end.
Proof.
  unfold process_attachment, bind. rewrite run_lookup_eq.
  destruct (exec w _ (rowId a) (attachmentId a)); reflexivity.
Qed.


End Loop.


(** ** Writing *)

Lemma nth_error_clear_at (frames : list AttachmentFrame) :
  forall i a,
    nth_error frames i = Some a ->
    nth_error (clear_at i frames) i = Some (clearData a).
Proof.
  induction frames as [|b frames IH]; intros [|i] a H; simpl in *; try discriminate.
  - now inversion H.
  - now apply IH.
Qed.

Lemma nth_error_clear_at_other (frames : list AttachmentFrame) :
  forall i j, i <> j -> nth_error (clear_at i frames) j = nth_error frames j.
Proof.
  induction frames as [|b frames IH]; intros [|i] [|j] H; simpl; try reflexivity.
  - contradiction.
  - apply IH. congruence.
Qed.

(** C4, as the code has it.  When the stream for an attachment opens,
    a write is attempted and the payload of that attachment is released
    whether the write succeeds or fails; when the stream does not open,
    no write is attempted and the frames are left as they were, payload
    included. *)
Theorem payload_released_once_written {FS : Type} (w : World FS)
    (i : nat) (a : AttachmentFrame) (path : string) (datum : Z) (st : State FS) :
  nth_error (d_attachments st) i = Some a ->
  let opened := ofstream_open w (fs st) path in
  let written := ofstream_write w (snd opened) path (attachmentData a) in
  let result := write_attachment w i a path datum st in
  if fst opened then
    fst result = (if fst written then Next tt else Continue WriteFailed) /\
    nth_error (d_attachments (snd result)) i = Some (clearData a) /\
    attachmentData (clearData a) = None
  else
    fst result = Continue OpenFailed /\
    d_attachments (snd result) = d_attachments st /\
    fs (snd result) = snd opened.
Proof.
  intros Hframe opened written result.
  subst result written opened.
  unfold write_attachment, bind, with_fs, logger, clear_frame, continue_with.
  destruct (ofstream_open w (fs st) path) as [is_open fs1].
  cbn [fst snd fs conversations log d_attachments]. destruct is_open; cbn [negb].
  - cbn [fst snd fs conversations log d_attachments].
    destruct (ofstream_write w fs1 path (attachmentData a)) as [ok fs2].
    cbn [fst snd]. destruct ok; cbn [negb fst snd d_attachments fs conversations log].
    + split; [reflexivity|]. split; [|reflexivity].
      now apply nth_error_clear_at.
    + split; [reflexivity|]. split; [|reflexivity].
      now apply nth_error_clear_at.
  - cbn [fst snd d_attachments fs conversations log]. repeat split.
Qed.

Lemma payload_released_once_written_witness :
  let w := sample_world full_tables (fun _ _ _ => Some []) true false in
  let a := sample_frame 1 10 in
  let st := sample_state [a] in
  let opened := ofstream_open w (fs st) "out/a.png" in
  let written := ofstream_write w (snd opened) "out/a.png" (attachmentData a) in
  let result := write_attachment w 0 a "out/a.png" 1672574400123 st in
  if fst opened then
    fst result = (if fst written then Next tt else Continue WriteFailed) /\
    nth_error (d_attachments (snd result)) 0 = Some (clearData a) /\
    attachmentData (clearData a) = None
  else
    fst result = Continue OpenFailed /\
    d_attachments (snd result) = d_attachments st /\
    fs (snd result) = snd opened.
Proof.
  exact (payload_released_once_written
           (sample_world full_tables (fun _ _ _ => Some []) true false)
           0 (sample_frame 1 10) "out/a.png" 1672574400123
           (sample_state [sample_frame 1 10]) eq_refl).
Defined.

(** C4, as stated, fails where the file cannot be opened: the run goes
    on, the error is logged, and the frame still holds its payload. *)
Lemma open_failure_keeps_payload :
  let rows := fun rid _ : Z => [sample_row 0 (Some 1672574400123) rid "Alice"] in
  let w := sample_world full_tables (fun _ => fun rid uid => Some (rows rid uid)) false true in
  let run := dumpMedia w "out" [] [] false (sample_state [sample_frame 1 10]) in
  fst run = true /\
  In (Error "Failed to open file for writing: 'out/Alice/sent/signal-2023-01-01-120000.png'")
     (log (snd run)) /\
  map attachmentData (d_attachments (snd run)) =
    [Some [Byte.x89; Byte.x50; Byte.x4e; Byte.x47]] /\
  ~ (forall a, In a (d_attachments (snd run)) -> attachmentData a = None).
Proof.
  vm_compute. split; [reflexivity|]. split; [right; right; left; reflexivity|].
  split; [reflexivity|].
  intros H. specialize (H _ (or_introl eq_refl)). discriminate H.
Qed.

(** ** The result of a run *)

Create HintDb aborts.

Section Aborts.

Context {FS : Type} (w : World FS).

Lemma never_aborts_ret {A} (x : A) : never_aborts (@ret FS A x).
Proof. intros st. discriminate. Qed.

Lemma never_aborts_continue {A} (o : Outcome) : never_aborts (@continue_with FS A o).
Proof. intros st. discriminate. Qed.

Lemma never_aborts_logger (entries : list LogEntry) : never_aborts (@logger FS entries).
Proof. intros st. discriminate. Qed.

Lemma never_aborts_clear (i : nat) : never_aborts (@clear_frame FS i).
Proof. intros st. discriminate. Qed.

Lemma never_aborts_with_fs {A} (f : FS -> A * FS) : never_aborts (with_fs f).
Proof. intros st. unfold with_fs. destruct (f (fs st)). discriminate. Qed.

Lemma never_aborts_with_conversations {A} (f : Conversations -> A * Conversations) :
  never_aborts (@with_conversations FS A f).
Proof. intros st. unfold with_conversations. destruct (f (conversations st)). discriminate. Qed.

Lemma never_aborts_bind {A B} (m : M FS A) (k : A -> M FS B) :
  never_aborts m -> (forall x, never_aborts (k x)) -> never_aborts (bind m k).
Proof.
  intros Hm Hk st. unfold bind. specialize (Hm st).
  destruct (m st) as [[x|o|] st']; simpl in *.
  - apply Hk.
  - discriminate.
  - contradiction.
Qed.

#[local] Hint Resolve never_aborts_ret never_aborts_continue never_aborts_logger
  never_aborts_clear never_aborts_with_fs never_aborts_with_conversations : aborts.

Ltac steps :=
  repeat (first [ apply never_aborts_bind; [|intros ?] | solve [auto with aborts] ]).

Lemma never_aborts_choose_filename (a : AttachmentFrame) (r : Row) :
  never_aborts (choose_filename w a r).
Proof.
  unfold choose_filename.
  destruct (empty (recorded_filename w r)); [|steps].
  destruct (empty (getExtension w (ct r))); steps.
Qed.

Lemma never_aborts_ensure_directory (path : string) :
  never_aborts (ensure_directory w path).
Proof.
  intros st. unfold ensure_directory.
  destruct (isDir w (fs st) path); [discriminate|].
  revert st. apply never_aborts_bind; [steps|].
  intros [|]; steps.
Qed.

Lemma never_aborts_choose_targetdir (dir : string) (r : Row) :
  never_aborts (choose_targetdir w dir r).
Proof.
  unfold choose_targetdir.
  destruct (fullbackup w); [|steps].
  destruct (thread_id r); [|steps].
  destruct (chatpartner r); [|steps].
  destruct (mms_type r); [|steps].
  apply never_aborts_bind; [steps|intros name].
  apply never_aborts_bind; [apply never_aborts_ensure_directory|intros _].
  apply never_aborts_bind; [apply never_aborts_ensure_directory|intros _].
  steps.
Qed.

Lemma never_aborts_write_attachment (i : nat) (a : AttachmentFrame)
    (path : string) (datum : Z) :
  never_aborts (write_attachment w i a path datum).
Proof.
  unfold write_attachment.
  apply never_aborts_bind; [steps|intros is_open].
  destruct is_open; cbn [negb]; [|steps].
  apply never_aborts_bind; [steps|intros written].
  destruct written; cbn [negb]; steps.
Qed.

Lemma never_aborts_handle_results (dir : string) (daterangelist : list string)
    (threads : list Z) (i : nat) (a : AttachmentFrame) (results : list Row) :
  never_aborts (handle_results w dir daterangelist threads i a results).
Proof.
  unfold handle_results.
  destruct (_ && _); [steps|].
  destruct results as [|r [|r' more]]; [unfold unexpected_rows; steps| |unfold unexpected_rows; steps].
  apply never_aborts_bind; [apply never_aborts_choose_filename|intros filename].
  apply never_aborts_bind; [apply never_aborts_choose_targetdir|intros targetdir].
  apply never_aborts_bind; [steps|intros [is_unique unique]].
  destruct is_unique; cbn [negb]; [apply never_aborts_write_attachment|steps].
Qed.

(** The loop returns false exactly when the lookup of one of the
    attachments it is given cannot be executed. *)
Lemma dump_loop_fails_iff (dir : string) (daterangelist : list string)
    (threads : list Z) (todo : list AttachmentFrame) :
  forall i st,
    fst (dump_loop w dir daterangelist threads i todo st) = false <->
    Exists (fun a => exec w (fst (lookup_query w daterangelist threads))
                       (rowId a) (attachmentId a) = None) todo.
Proof.
  induction todo as [|a rest IH]; intros i st.
  - cbn [dump_loop fst]. split; [discriminate|]. intros H. inversion H.
  - cbn [dump_loop]. rewrite process_attachment_eq.
    destruct (exec w _ (rowId a) (attachmentId a)) as [results|] eqn:Hexec.
    + pose proof (never_aborts_handle_results dir daterangelist threads i a results
                    (after_lookup w daterangelist threads i st)) as Hflow.
      destruct (handle_results w dir daterangelist threads i a results
                  (after_lookup w daterangelist threads i st)) as [[x|o|] st'];
        cbn [fst] in Hflow; try contradiction.
      * rewrite IH. split; [intros H; now right|].
        intros H. inversion H; subst; [congruence|assumption].
      * rewrite IH. split; [intros H; now right|].
        intros H. inversion H; subst; [congruence|assumption].
    + cbn [fst]. split; [intros _; now left|reflexivity].
Qed.

End Aborts.

(** The result of a run in every world, whether or not its store
    agrees with its schema: failure exactly when the check of lines
    27-31 fails, the output root cannot be prepared, or the lookup of
    one of the attachments cannot be executed. *)
Lemma dumpMedia_fails_iff {FS : Type} (w : World FS) (dir : string)
    (daterangelist : list string) (threads : list Z) (overwrite : bool) (st : State FS) :
  fst (dumpMedia w dir daterangelist threads overwrite st) = false <->
  (containsTable w "part" = false \/ tableContainsColumn w "part" "display_order" = false) \/
  fst (prepareOutputDirectory w (fs st) dir overwrite) = false \/
  Exists (fun a => exec w (fst (lookup_query w daterangelist threads))
                     (rowId a) (attachmentId a) = None) (d_attachments st).
Proof.
  unfold dumpMedia.
  destruct (containsTable w "part") eqn:Hpart; cbn [negb orb].
  2:{ split; [intros _; left; now left|reflexivity]. }
  destruct (tableContainsColumn w "part" "display_order") eqn:Hcolumn; cbn [negb].
  2:{ split; [intros _; left; now right|reflexivity]. }
  cbn [add_log fs log d_attachments conversations].
  destruct (prepareOutputDirectory w (fs st) dir overwrite) as [prepared fs'].
  cbn [fst]. destruct prepared; cbn [negb].
  2:{ split; [intros _; right; now left|reflexivity]. }
  match goal with
  | |- context [dump_loop w dir daterangelist threads 0 ?todo ?s] =>
      pose proof (dump_loop_fails_iff w dir daterangelist threads todo 0 s) as Hloop;
      destruct (dump_loop w dir daterangelist threads 0 todo s) as [result st']
  end.
  cbn [fst d_attachments] in Hloop |- *.
  destruct result; cbn [fst].
  - split; [discriminate|].
    intros [[H|H]|[H|H]]; try discriminate. now apply Hloop.
  - split; [|reflexivity]. intros _. right. right. now apply Hloop.
Qed.

(** C2, as the code has it.  In a world whose store agrees with its
    schema, the export returns failure exactly when the needs of the
    lookup are not met by the schema (the check of lines 27-31, made
    before anything else), the output root cannot be prepared, or the
    lookup of one of the attachments cannot be executed.  With at least
    one attachment the first case is a case of the last, and these are
    the two situations of the design; with no attachment no lookup is
    made, and the run fails exactly when the check fails or the output
    root cannot be prepared.  In every other situation, whatever
    happens to the single attachments, the run ends with success. *)
Theorem dumpMedia_failure_situations {FS : Type} (w : World FS) (dir : string)
    (daterangelist : list string) (threads : list Z) (overwrite : bool) (st : State FS) :
  store_follows_schema w ->
  let failed := fst (dumpMedia w dir daterangelist threads overwrite st) = false in
  let unchecked :=
    containsTable w "part" = false \/ tableContainsColumn w "part" "display_order" = false in
  let unprepared := fst (prepareOutputDirectory w (fs st) dir overwrite) = false in
  let refused :=
    Exists (fun a => exec w (fst (lookup_query w daterangelist threads))
                       (rowId a) (attachmentId a) = None) (d_attachments st) in
  (failed <-> unchecked \/ unprepared \/ refused) /\
  (failed <->
   match d_attachments st with
   | [] => unchecked \/ unprepared
   | _ :: _ => unprepared \/ refused
   end).
Proof.
  intros Hstore. cbv zeta.
  pose proof (dumpMedia_fails_iff w dir daterangelist threads overwrite st) as Hiff.
  split; [exact Hiff|]. rewrite Hiff.
  destruct (d_attachments st) as [|a rest].
  - split.
    + intros [Hcheck|[Hprep|Hex]]; [now left|now right|inversion Hex].
    + tauto.
  - split; [|tauto].
    intros [Hcheck|Hrest]; [|exact Hrest]. right. left. now apply Hstore.
Qed.

Lemma dumpMedia_failure_situations_witness :
  let w := sample_world ["mms"; "thread"] (fun _ _ _ => None) true true in
  let unchecked :=
    containsTable w "part" = false \/ tableContainsColumn w "part" "display_order" = false in
  let refused := fun st : State (list string) =>
    Exists (fun a => exec w (fst (lookup_query w [] [])) (rowId a) (attachmentId a) = None)
           (d_attachments st) in
  let one := sample_state [sample_frame 1 10] in
  let none := sample_state [] in
  ((fst (dumpMedia w "out" [] [] false one) = false <->
    unchecked \/ fst (prepareOutputDirectory w (fs one) "out" false) = false \/ refused one) /\
   (fst (dumpMedia w "out" [] [] false one) = false <->
    fst (prepareOutputDirectory w (fs one) "out" false) = false \/ refused one)) /\
  ((fst (dumpMedia w "out" [] [] false none) = false <->
    unchecked \/ fst (prepareOutputDirectory w (fs none) "out" false) = false \/ refused none) /\
   (fst (dumpMedia w "out" [] [] false none) = false <->
    unchecked \/ fst (prepareOutputDirectory w (fs none) "out" false) = false)).
Proof.
  split.
  - apply (dumpMedia_failure_situations
             (sample_world ["mms"; "thread"] (fun _ _ _ => None) true true)
             "out" [] [] false (sample_state [sample_frame 1 10])).
    intros _ daterangelist threads rid uid. reflexivity.
  - apply (dumpMedia_failure_situations
             (sample_world ["mms"; "thread"] (fun _ _ _ => None) true true)
             "out" [] [] false (sample_state [])).
    intros _ daterangelist threads rid uid. reflexivity.
Defined.

(** C2, as stated, fails on a database without the [part] table and
    with no attachment: the store, as such a database must, refuses
    every lookup, but none is made; the output root could be prepared;
    and the export still returns failure, with the output root not
    touched. *)
Lemma missing_part_table_without_attachments :
  let w := sample_world ["mms"; "thread"] (fun _ _ _ => None) true true in
  let st := sample_state [] in
  store_follows_schema w /\
  fst (dumpMedia w "out" [] [] false st) = false /\
  fst (prepareOutputDirectory w (fs st) "out" false) = true /\
  ~ Exists (fun a => exec w (fst (lookup_query w [] [])) (rowId a) (attachmentId a) = None)
      (d_attachments st) /\
  fs (snd (dumpMedia w "out" [] [] false st)) = [].
Proof.
  split; [intros _ daterangelist threads rid uid; reflexivity|].
  split; [reflexivity|]. split; [reflexivity|].
  split; [intros H; inversion H|reflexivity].
Qed.

(** ** File names *)

Lemma bind_eq {FS A B : Type} (m : M FS A) (k : A -> M FS B) (st : State FS) :
  bind m k st =
  match m st with
  | (Next x, st') => k x st'
  | (Continue o, st') => (Continue o, st')
  | (ReturnFalse, st') => (ReturnFalse, st')
  end.
Proof. reflexivity. Qed.








(** Scenario D, and the same attachment with display order 3, on a
    machine whose local time is UTC. *)
Example scenario_D :
  let w := sample_world full_tables (fun _ _ _ => Some []) true true in
  let a := sample_frame 1 10 in
  let st := sample_state [a] in
  choose_filename w a (sample_row 0 (Some 1672574400123) 7 "Alice") st =
    (Next "signal-2023-01-01-120000.png", st) /\
  choose_filename w a (sample_row 3 (Some 1672574400123) 7 "Alice") st =
    (Next "signal-2023-01-01-120000_3.png", st).
Proof. vm_compute. split; reflexivity. Qed.

(** * Further properties of the lookup statement *)

Lemma thread_list_text (threads : list Z) :
  threads <> [] ->
  thread_list threads = comma_join (map toString threads) ++ ")".
Proof.
  induction threads as [|t rest IH]; intros Hne; [contradiction|].
  destruct rest as [|t' rest].
  - cbn [thread_list map comma_join]. now rewrite append_nil_r.
  - change (thread_list (t :: t' :: rest))
      with (toString t ++ "," ++ thread_list (t' :: rest)).
    rewrite IH by discriminate.
    change (comma_join (map toString (t :: t' :: rest)))
      with (toString t ++ "," ++ comma_join (map toString (t' :: rest))).
    text_eq.
Qed.

Lemma paren_free_comma_join (threads : list Z) :
  paren_free (comma_join (map toString threads)).
Proof.
  induction threads as [|t rest IH]; [intros d; reflexivity|].
  destruct rest as [|t' rest].
  - apply paren_free_toString.
  - change (comma_join (map toString (t :: t' :: rest)))
      with (toString t ++ "," ++ comma_join (map toString (t' :: rest))).
    apply paren_free_app; [apply paren_free_toString|].
    apply paren_free_app; [intros d; reflexivity|exact IH].
Qed.

(** X1. A thread allow-list that is not empty adds
    [" AND thread._id IN ("], its ids in decimal in the order given with
    a comma between neighbours, and [")"]; the parentheses of what is
    added pair up. *)
Theorem thread_clause_text (threads : list Z) :
  threads <> [] ->
  thread_clause threads =
    " AND thread._id IN (" ++ comma_join (map toString threads) ++ ")" /\
  paren_free (thread_clause threads).
Proof.
  intros Hne.
  assert (Htext : thread_clause threads =
    " AND thread._id IN (" ++ comma_join (map toString threads) ++ ")").
  { destruct threads as [|t rest]; [contradiction|].
    unfold thread_clause. now rewrite thread_list_text by discriminate. }
  split; [exact Htext|].
  rewrite Htext. intros d.
  change (" AND thread._id IN (" ++ comma_join (map toString threads) ++ ")")
    with (" AND thread._id IN " ++ "(" ++ comma_join (map toString threads) ++ ")").
  rewrite paren_depth_app. cbn [paren_depth append Ascii.eqb Bool.eqb].
  rewrite paren_depth_app, paren_free_comma_join. reflexivity.
Qed.

Lemma thread_clause_text_witness :
  thread_clause [5; -7; 12] =
    " AND thread._id IN (" ++ comma_join (map toString [5; -7; 12]) ++ ")" /\
  paren_free (thread_clause [5; -7; 12]).
Proof.
  apply (thread_clause_text [5; -7; 12]). discriminate.
Defined.

(** X2. The date filter of any list of tokens: nothing when no pair is
    used (no tokens, an odd number of them, or every pair discarded);
    otherwise [" AND ("], the pairs that are used in their order, each
    as [date_received BETWEEN start AND end] with [" OR "] between
    neighbours, and [")"] when the last pair of the list is used. *)
Theorem date_filter_text {FS : Type} (w : World FS) (daterangelist : list string) :
  fst (date_clause w daterangelist) =
  match filter (kept w) (dateranges daterangelist) with
  | [] => ""
  | range :: used =>
      " AND (" ++ kept_text w range ++ or_join (map (kept_text w) used) ++
      (if last_kept w (dateranges daterangelist) then ")" else "")
  end.
Proof.
  unfold date_clause. destruct daterangelist as [|token tokens].
  - reflexivity.
  - apply date_clause_loop_text.
Qed.

(** X3. What building the date filter logs: for every pair of the list,
    in order, the two lines of a discarded pair (the error that quotes
    both of its strings, then the two parsed values) or, for a pair that
    is used, the line that reports it when verbose and nothing
    otherwise. *)
Theorem date_filter_log {FS : Type} (w : World FS) (daterangelist : list string) :
  snd (date_clause w daterangelist) =
  flat_map (fun range => if kept w range then use_entries w range
                         else skip_entries w range)
           (dateranges daterangelist).
Proof.
  unfold date_clause. destruct daterangelist as [|token tokens].
  - reflexivity.
  - now rewrite date_clause_loop_log.
Qed.

(** ** Parts of a text *)

Lemma substring_skip (a s : string) (n : nat) :
  substring (String.length a) n (a ++ s) = substring 0 n s.
Proof. induction a as [|c a IH]; simpl; [reflexivity|exact IH]. Qed.

Lemma substring_prefix (p b : string) :
  substring 0 (String.length p) (p ++ b) = p.
Proof. induction p as [|c p IH]; simpl; [now destruct b|now rewrite IH]. Qed.

Lemma contains_found (p s : string) (m : nat) :
  p <> "" -> substring m (String.length p) s = p -> contains p s = true.
Proof.
  intros Hp Hsub. unfold contains.
  destruct (String.index 0 p s) eqn:Hindex; [reflexivity|].
  exfalso. apply (index_correct3 0 m p s Hindex Hp (Nat.le_0_l m)). exact Hsub.
Qed.

Lemma contains_position (p s : string) :
  contains p s = true -> exists m, substring m (String.length p) s = p.
Proof.
  unfold contains. destruct (String.index 0 p s) as [m|] eqn:Hindex; [|discriminate].
  intros _. exists m. exact (index_correct1 0 m p s Hindex).
Qed.

Lemma contains_middle (a p b : string) : p <> "" -> contains p (a ++ p ++ b) = true.
Proof.
  intros Hp. apply (contains_found p _ (String.length a) Hp).
  rewrite substring_skip. apply substring_prefix.
Qed.

Lemma contains_after (a p s : string) :
  p <> "" -> contains p s = true -> contains p (a ++ s) = true.
Proof.
  intros Hp Hin. destruct (contains_position p s Hin) as [m Hsub].
  apply (contains_found p _ (String.length a + m) Hp).
  rewrite <- Hsub at 2. clear Hsub.
  induction a as [|c a IH]; simpl; [reflexivity|exact IH].
Qed.

Lemma substring_none (s : string) : forall m, substring m 0 s = "".
Proof.
  induction s as [|c s IH]; intros [|m]; simpl; try reflexivity. apply IH.
Qed.

Lemma substring_before (s b : string) :
  forall m n,
    String.length (substring m n s) = n ->
    substring m n (s ++ b) = substring m n s.
Proof.
  induction s as [|c s IH]; intros m n Hlen.
  - assert (n = 0%nat) by (destruct m, n; simpl in Hlen; congruence).
    subst n. now rewrite !substring_none.
  - destruct m as [|m], n as [|n]; simpl in *.
    + reflexivity.
    + f_equal. apply IH. lia.
    + now apply IH.
    + now apply IH.
Qed.

Lemma contains_before (p s b : string) :
  p <> "" -> contains p s = true -> contains p (s ++ b) = true.
Proof.
  intros Hp Hin. destruct (contains_position p s Hin) as [m Hsub].
  apply (contains_found p _ m Hp).
  rewrite substring_before; [exact Hsub|]. now rewrite Hsub.
Qed.

Lemma occurs_app (c : ascii) (a b : string) :
  occurs c (a ++ b) = occurs c a || occurs c b.
Proof.
  induction a as [|x a IH]; simpl; [reflexivity|].
  now rewrite IH, orb_assoc.
Qed.

Lemma occurs_substring (c : ascii) (s : string) :
  forall m n, occurs c (substring m n s) = true -> occurs c s = true.
Proof.
  induction s as [|x s IH]; intros [|m] [|n] H; simpl in *; try discriminate.
  - apply orb_true_iff in H. apply orb_true_iff.
    destruct H as [H|H]; [now left|right; exact (IH _ _ H)].
  - apply orb_true_iff. right. exact (IH _ _ H).
  - apply orb_true_iff. right. exact (IH _ _ H).
Qed.

(** A text holds every character of a text it contains. *)
Lemma contains_occurs (c : ascii) (p s : string) :
  contains p s = true -> occurs c p = true -> occurs c s = true.
Proof.
  intros Hin Hc. destruct (contains_position p s Hin) as [m Hsub].
  apply (occurs_substring c s m (String.length p)). now rewrite Hsub.
Qed.

Lemma no_J_digits (u : Decimal.uint) : occurs "J" (NilEmpty.string_of_uint u) = false.
Proof. induction u; simpl; try reflexivity; exact IHu. Qed.

Lemma no_J_toString (z : Z) : occurs "J" (toString z) = false.
Proof.
  unfold toString, NilZero.string_of_int, NilZero.string_of_uint.
  destruct (Z.to_int z) as [u|u]; destruct u; try reflexivity;
    simpl; apply no_J_digits.
Qed.

Lemma no_J_thread_list (threads : list Z) : occurs "J" (thread_list threads) = false.
Proof.
  induction threads as [|t rest IH]; [reflexivity|].
  cbn [thread_list]. rewrite !occurs_app, no_J_toString, IH.
  destruct rest; reflexivity.
Qed.

Lemma no_J_kept_text {FS : Type} (w : World FS) (range : string * string) :
  occurs "J" (kept_text w range) = false.
Proof.
  unfold kept_text, range_text. destruct (dateToMSecsSinceEpoch w (snd range)).
  now rewrite !occurs_app, !no_J_toString.
Qed.

Lemma no_J_or_join {FS : Type} (w : World FS) (ranges : list (string * string)) :
  occurs "J" (or_join (map (kept_text w) ranges)) = false.
Proof.
  induction ranges as [|range rest IH]; [reflexivity|].
  cbn [map or_join]. now rewrite !occurs_app, no_J_kept_text, IH.
Qed.

Lemma no_J_date_clause {FS : Type} (w : World FS) (daterangelist : list string) :
  occurs "J" (fst (date_clause w daterangelist)) = false.
Proof.
  unfold date_clause. destruct daterangelist as [|token tokens]; [reflexivity|].
  rewrite date_clause_loop_text.
  destruct (filter (kept w) (dateranges (token :: tokens))); [reflexivity|].
  rewrite !occurs_app, no_J_kept_text, no_J_or_join.
  destruct (last_kept w (dateranges (token :: tokens))); reflexivity.
Qed.

(** X4. On a database without the tables of the full projection, every
    thread allow-list that is not empty, with any date tokens, gives a
    statement that tests [thread._id] and joins no [thread] table. *)
Theorem minimal_thread_filter_unjoined {FS : Type} (w : World FS)
    (daterangelist : list string) (threads : list Z) :
  fullbackup w = false ->
  threads <> [] ->
  thread_unjoined (fst (lookup_query w daterangelist threads)) = true /\
  well_formed_lookup (fst (lookup_query w daterangelist threads)) = false.
Proof.
  intros Hminimal Hthreads.
  assert (Hunjoined : thread_unjoined (fst (lookup_query w daterangelist threads)) = true).
  { rewrite minimal_lookup_text by assumption.
    unfold thread_unjoined. apply andb_true_iff. split.
    - apply contains_before; [discriminate|].
      apply contains_after; [discriminate|].
      destruct threads as [|t rest]; [contradiction|]. unfold thread_clause.
      change (" AND thread._id IN (" ++ thread_list (t :: rest))
        with (" AND " ++ "thread._id IN" ++ " (" ++ thread_list (t :: rest)).
      apply contains_middle. discriminate.
    - apply negb_true_iff.
      destruct (contains "JOIN thread " _) eqn:Hjoin; [|reflexivity].
      apply (contains_occurs "J") in Hjoin; [|reflexivity].
      rewrite !occurs_app, no_J_date_clause in Hjoin.
      destruct threads as [|t rest]; [contradiction|]. unfold thread_clause in Hjoin.
      rewrite occurs_app, no_J_thread_list in Hjoin. discriminate Hjoin. }
  split; [exact Hunjoined|].
  unfold well_formed_lookup. rewrite Hunjoined. apply andb_false_r.
Qed.

Lemma minimal_thread_filter_unjoined_witness :
  let w := sample_world ["part"] (fun _ _ _ => Some []) true true in
  thread_unjoined (fst (lookup_query w ["2023-01-01"; "2023-01-02"] [5; 7])) = true /\
  well_formed_lookup (fst (lookup_query w ["2023-01-01"; "2023-01-02"] [5; 7])) = false.
Proof.
  apply (minimal_thread_filter_unjoined
           (sample_world ["part"] (fun _ _ _ => Some []) true true)
           ["2023-01-01"; "2023-01-02"] [5; 7]); [reflexivity|discriminate].
Defined.

(** X5. On a complete database the statement joins the [thread] table,
    whatever the version-dependent names, the allow-list and the date
    tokens are: a thread filter always has its table. *)
Theorem full_lookup_joins_thread {FS : Type} (w : World FS)
    (daterangelist : list string) (threads : list Z) :
  fullbackup w = true ->
  contains "JOIN thread " (fst (lookup_query w daterangelist threads)) = true /\
  thread_unjoined (fst (lookup_query w daterangelist threads)) = false.
Proof.
  intros Hfull.
  assert (Hjoin : contains "JOIN thread " (fst (lookup_query w daterangelist threads)) = true).
  { unfold lookup_query. rewrite Hfull.
    destruct (date_clause w daterangelist) as [datewhereclause logged]. cbn [fst].
    apply contains_before; [discriminate|].
    apply contains_before; [discriminate|].
    unfold full_query.
    do 18 (apply contains_after; [discriminate|]).
    change ("._id LEFT JOIN thread ON " ++ d_mms_table w ++
            ".thread_id == thread._id LEFT JOIN recipient ON thread." ++
            d_thread_recipient_id w ++
            " == recipient._id LEFT JOIN groups ON recipient.group_id == groups.group_id WHERE part._id == ? AND part.unique_id == ?")
      with ("._id LEFT " ++ "JOIN thread " ++ "ON " ++ d_mms_table w ++
            ".thread_id == thread._id LEFT JOIN recipient ON thread." ++
            d_thread_recipient_id w ++
            " == recipient._id LEFT JOIN groups ON recipient.group_id == groups.group_id WHERE part._id == ? AND part.unique_id == ?").
    apply contains_middle. discriminate. }
  split; [exact Hjoin|].
  unfold thread_unjoined. rewrite Hjoin. apply andb_false_r.
Qed.

Lemma full_lookup_joins_thread_witness :
  let w := sample_world full_tables (fun _ _ _ => Some []) true true in
  contains "JOIN thread " (fst (lookup_query w [] [5])) = true /\
  thread_unjoined (fst (lookup_query w [] [5])) = false.
Proof.
  apply (full_lookup_joins_thread
           (sample_world full_tables (fun _ _ _ => Some []) true true) [] [5]).
  reflexivity.
Defined.

Lemma paren_free_thread_clause (threads : list Z) : paren_free (thread_clause threads).
Proof.
  destruct threads as [|t rest]; [intros d; reflexivity|].
  unfold thread_clause. rewrite thread_list_text by discriminate. intros d.
  change (" AND thread._id IN (" ++ comma_join (map toString (t :: rest)) ++ ")")
    with (" AND thread._id IN " ++ "(" ++ comma_join (map toString (t :: rest)) ++ ")").
  rewrite paren_depth_app. cbn [paren_depth append Ascii.eqb Bool.eqb].
  rewrite paren_depth_app, paren_free_comma_join. reflexivity.
Qed.

Lemma paren_free_full_query {FS : Type} (w : World FS) :
  plain_names w -> paren_free (full_query w).
Proof.
  intros [Hmms [Htype [Hrecipient [Hsystem Hgiven]]]] d. unfold full_query.
  repeat (rewrite paren_depth_app; cbn [paren_depth Ascii.eqb Bool.eqb];
          rewrite ?Hmms, ?Htype, ?Hrecipient, ?Hsystem, ?Hgiven).
  reflexivity.
Qed.

Lemma parens_balanced_after (a b : string) :
  paren_free a -> parens_balanced (a ++ b) = parens_balanced b.
Proof.
  intros Ha. unfold parens_balanced. now rewrite paren_depth_app, Ha.
Qed.

(** X6. When the version-dependent names hold no parenthesis, the
    parentheses of the whole statement, in either mode and with any
    allow-list, pair up exactly when no date pair is used or the last
    pair of the list is used. *)
Theorem lookup_parentheses {FS : Type} (w : World FS)
    (daterangelist : list string) (threads : list Z) :
  plain_names w ->
  parens_balanced (fst (lookup_query w daterangelist threads)) =
  match filter (kept w) (dateranges daterangelist) with
  | [] => true
  | _ => last_kept w (dateranges daterangelist)
  end.
Proof.
  intros Hnames. unfold lookup_query.
  destruct (date_clause w daterangelist) as [datewhereclause logged] eqn:Hclause.
  cbn [fst].
  rewrite parens_balanced_after.
  2:{ apply paren_free_app; [|apply paren_free_thread_clause].
      destruct (fullbackup w); [now apply paren_free_full_query|intros d; reflexivity]. }
  replace datewhereclause with (fst (date_clause w daterangelist)) by now rewrite Hclause.
  unfold date_clause. destruct daterangelist as [|token tokens]; [reflexivity|].
  apply date_filter_balanced.
Qed.

Lemma lookup_parentheses_witness :
  let w := sample_world full_tables (fun _ _ _ => Some []) true true in
  parens_balanced
    (fst (lookup_query w ["2023-01-01"; "2023-01-02"; "garbage"; "2023-02-01"] [5])) =
  match filter (kept w) (dateranges ["2023-01-01"; "2023-01-02"; "garbage"; "2023-02-01"]) with
  | [] => true
  | _ => last_kept w (dateranges ["2023-01-01"; "2023-01-02"; "garbage"; "2023-02-01"])
  end.
Proof.
  apply (lookup_parentheses
           (sample_world full_tables (fun _ _ _ => Some []) true true)
           ["2023-01-01"; "2023-01-02"; "garbage"; "2023-02-01"] [5]).
  repeat split; intros d; reflexivity.
Defined.

(** * Further properties of the registry *)

Lemma resolve_conversation_lengths (c : Conversations) (tid : Z) (chatpartner : string) :
  List.length (fst c) = List.length (snd c) ->
  List.length (fst (fst (resolve_conversation c tid chatpartner))) =
  List.length (snd (fst (resolve_conversation c tid chatpartner))).
Proof.
  intros Hlen.
  destruct (resolve_conversation_extends c tid chatpartner) as [ids [names [Heq Hsame]]].
  rewrite Heq. simpl. rewrite !length_app. lia.
Qed.

(** The position a lookup returns is a position of the registry, and
    the id recorded there is the thread's (as stored, for a new one). *)
Lemma resolve_conversation_index (c : Conversations) (tid : Z) (chatpartner : string) :
  List.length (fst c) = List.length (snd c) ->
  let result := resolve_conversation c tid chatpartner in
  0 <= snd result < Z.of_nat (List.length (snd (fst result))) /\
  nth_error (fst (fst result)) (Z.to_nat (snd result)) =
    Some (if findIdxOf (fst c) tid =? -1 then int_of_longlong tid else tid).
Proof.
  intros Hlen result. subst result. destruct c as [ids names]. simpl in Hlen.
  cbn [fst]. destruct (Z.eqb_spec (findIdxOf ids tid) (-1)) as [Hnew|Hknown].
  - destruct (resolve_conversation_new ids names tid chatpartner Hnew) as [name [Heq _]].
    rewrite Heq. cbn [fst snd]. rewrite length_app. cbn [List.length]. split; [lia|].
    rewrite Nat2Z.id, <- Hlen, nth_error_app2 by lia.
    now rewrite Nat.sub_diag.
  - rewrite resolve_conversation_known by assumption. cbn [fst snd].
    destruct (findIdxOf_from_present ids tid 0 ltac:(lia) Hknown) as [Hrange Hnth].
    fold (findIdxOf ids tid) in Hrange, Hnth.
    rewrite Z.sub_0_r in Hnth. split; [lia|exact Hnth].
Qed.

(** X7. Whatever the thread ids and names of a run are, the registry
    built from the empty one holds as many ids as names and no
    directory name twice. *)
Theorem registry_names_distinct (lookups : list (Z * string)) :
  let c := resolve_all no_conversations lookups in
  List.length (fst c) = List.length (snd c) /\ NoDup (snd c).
Proof.
  assert (Hgen : forall c,
    List.length (fst c) = List.length (snd c) /\ NoDup (snd c) ->
    List.length (fst (resolve_all c lookups)) = List.length (snd (resolve_all c lookups)) /\
    NoDup (snd (resolve_all c lookups))).
  { induction lookups as [|lookup rest IH]; intros c Hc; [exact Hc|].
    cbn [resolve_all fold_left]. apply IH. destruct Hc as [Hlen Hnames]. split.
    - now apply resolve_conversation_lengths.
    - now apply resolve_conversation_names_distinct. }
  apply Hgen. split; [reflexivity|constructor].
Qed.

Lemma resolve_all_extends (lookups : list (Z * string)) :
  forall c, exists ids names,
    resolve_all c lookups = ((fst c ++ ids)%list, (snd c ++ names)%list) /\
    List.length ids = List.length names.
Proof.
  induction lookups as [|lookup rest IH]; intros c0.
  - exists [], []. destruct c0. cbn. rewrite !app_nil_r. split; reflexivity.
  - cbn [resolve_all fold_left].
    destruct (resolve_conversation_extends c0 (fst lookup) (snd lookup))
      as [ids1 [names1 [Heq1 Hlen1]]].
    destruct (IH (fst (resolve_conversation c0 (fst lookup) (snd lookup))))
      as [ids2 [names2 [Heq2 Hlen2]]].
    exists (ids1 ++ ids2)%list, (names1 ++ names2)%list.
    unfold resolve_all in Heq2. rewrite Heq2, Heq1. cbn [fst snd].
    rewrite !app_assoc, !length_app. split; [reflexivity|lia].
Qed.

(** X8. Lookups only ever add entries at the end of the registry:
    after any further lookups every entry that was there is still at
    its position, with the id and the directory name it had. *)
Theorem registry_append_only (c : Conversations) (lookups : list (Z * string)) :
  exists ids names,
    resolve_all c lookups = ((fst c ++ ids)%list, (snd c ++ names)%list) /\
    List.length ids = List.length names /\
    (forall n, (n < List.length (snd c))%nat ->
       conversation_name (resolve_all c lookups) (Z.of_nat n) =
       conversation_name c (Z.of_nat n)) /\
    (forall n, (n < List.length (fst c))%nat ->
       nth_error (fst (resolve_all c lookups)) n = nth_error (fst c) n).
Proof.
  destruct (resolve_all_extends lookups c) as [ids [names [Heq Hlen]]].
  exists ids, names. split; [exact Heq|]. split; [exact Hlen|]. split.
  - intros n Hn. unfold conversation_name. rewrite Heq. cbn [snd].
    rewrite Nat2Z.id. now apply app_nth1.
  - intros n Hn. rewrite Heq. cbn [fst]. now apply nth_error_app1.
Qed.

(** X9. In a registry with as many ids as names, the position a lookup
    returns is always a position of the registry after the lookup: the
    directory name read there is one of its names, and the registry
    still has as many ids as names. *)
Theorem resolved_index_in_range (c : Conversations) (tid : Z) (chatpartner : string) :
  List.length (fst c) = List.length (snd c) ->
  let result := resolve_conversation c tid chatpartner in
  0 <= snd result < Z.of_nat (List.length (snd (fst result))) /\
  In (conversation_name (fst result) (snd result)) (snd (fst result)) /\
  List.length (fst (fst result)) = List.length (snd (fst result)).
Proof.
  intros Hlen result.
  destruct (resolve_conversation_index c tid chatpartner Hlen) as [Hrange _].
  fold result in Hrange. split; [exact Hrange|]. split.
  - unfold conversation_name. apply nth_In. lia.
  - now apply resolve_conversation_lengths.
Qed.

Lemma resolved_index_in_range_witness :
  let result := resolve_conversation ([1; 2], ["Alice"; "Bob"]) 3 "Alice" in
  0 <= snd result < Z.of_nat (List.length (snd (fst result))) /\
  In (conversation_name (fst result) (snd result)) (snd (fst result)) /\
  List.length (fst (fst result)) = List.length (snd (fst result)).
Proof.
  apply (resolved_index_in_range ([1; 2], ["Alice"; "Bob"]) 3 "Alice"). reflexivity.
Defined.

(** X10. In a registry that pairs ids and names one to one, two
    distinct thread ids of the range of [int], looked up one after the
    other with whatever names, are given two different directory names,
    and the second lookup leaves the name of the first as it is. *)
Theorem distinct_threads_distinct_folders (c : Conversations) (t1 t2 : Z)
    (name1 name2 : string) :
  registry_ok c -> fits_int t1 -> fits_int t2 -> t1 <> t2 ->
  let first := resolve_conversation c t1 name1 in
  let second := resolve_conversation (fst first) t2 name2 in
  conversation_name (fst second) (snd second) <>
  conversation_name (fst second) (snd first) /\
  conversation_name (fst second) (snd first) =
  conversation_name (fst first) (snd first) /\
  registry_ok (fst second).
Proof.
  intros Hok Hfit1 Hfit2 Hdiff first second.
  assert (Hok1 : registry_ok (fst first)) by now apply resolve_conversation_ok.
  assert (Hok2 : registry_ok (fst second)) by now apply resolve_conversation_ok.
  destruct Hok as [Hlen _]. destruct Hok1 as [Hlen1 [Hids1 Hnames1]].
  destruct (resolve_conversation_index c t1 name1 Hlen) as [Hrange1 Hnth1].
  destruct (resolve_conversation_index (fst first) t2 name2 Hlen1) as [Hrange2 Hnth2].
  fold first in Hrange1, Hnth1. fold second in Hrange2, Hnth2.
  assert (Hid1 : nth_error (fst (fst first)) (Z.to_nat (snd first)) = Some t1).
  { rewrite Hnth1. destruct (findIdxOf (fst c) t1 =? -1); [|reflexivity].
    now rewrite int_of_longlong_fits. }
  assert (Hid2 : nth_error (fst (fst second)) (Z.to_nat (snd second)) = Some t2).
  { rewrite Hnth2. destruct (findIdxOf (fst (fst first)) t2 =? -1); [|reflexivity].
    now rewrite int_of_longlong_fits. }
  destruct (resolve_conversation_extends (fst first) t2 name2)
    as [ids [names [Heq Hsame]]].
  fold second in Heq.
  assert (Hkeep : conversation_name (fst second) (snd first) =
                  conversation_name (fst first) (snd first)).
  { unfold conversation_name. rewrite Heq. cbn [snd]. apply app_nth1. lia. }
  split; [|split; [exact Hkeep|exact Hok2]].
  intros Hsame_name.
  destruct Hok2 as [Hlen2 [Hids2 Hnames2]].
  assert (Hpos : Z.to_nat (snd second) = Z.to_nat (snd first)).
  { unfold conversation_name in Hsame_name.
    apply (proj1 (NoDup_nth (snd (fst second)) "") Hnames2); [| |exact Hsame_name].
    - lia.
    - rewrite Heq. cbn [snd]. rewrite length_app. lia. }
  rewrite Hpos in Hid2.
  assert (Hid1' : nth_error (fst (fst second)) (Z.to_nat (snd first)) = Some t1).
  { rewrite Heq. cbn [fst]. rewrite nth_error_app1; [exact Hid1|]. lia. }
  congruence.
Qed.

Lemma distinct_threads_distinct_folders_witness :
  let first := resolve_conversation ([7], ["Alice"]) 8 "Alice" in
  let second := resolve_conversation (fst first) 9 "Alice" in
  conversation_name (fst second) (snd second) <>
  conversation_name (fst second) (snd first) /\
  conversation_name (fst second) (snd first) =
  conversation_name (fst first) (snd first) /\
  registry_ok (fst second).
Proof.
  apply (distinct_threads_distinct_folders ([7], ["Alice"]) 8 9 "Alice" "Alice").
  - split; [reflexivity|]. split; (constructor; [intros []|constructor]).
  - unfold fits_int. lia.
  - unfold fits_int. lia.
  - discriminate.
Defined.

(** X22. A thread id of the range of [int] keeps its folder for the
    rest of the run: once it has been looked up, any lookups of other
    threads later, a new lookup of it, with whatever partner name,
    returns the directory name it was given first and changes nothing
    in the registry. *)
Theorem thread_keeps_its_folder (c : Conversations) (tid : Z) (name1 name2 : string)
    (lookups : list (Z * string)) :
  List.length (fst c) = List.length (snd c) ->
  fits_int tid ->
  let first := resolve_conversation c tid name1 in
  let later := resolve_all (fst first) lookups in
  let again := resolve_conversation later tid name2 in
  fst again = later /\
  conversation_name (fst again) (snd again) = conversation_name (fst first) (snd first).
Proof.
  intros Hlen Hfits first later again.
  pose proof (resolve_conversation_lengths c tid name1 Hlen) as Hlen1.
  destruct (resolve_conversation_index c tid name1 Hlen) as [Hrange1 Hnth1].
  fold first in Hlen1, Hrange1, Hnth1.
  assert (Hid : nth_error (fst (fst first)) (Z.to_nat (snd first)) = Some tid).
  { rewrite Hnth1. destruct (findIdxOf (fst c) tid =? -1); [|reflexivity].
    now rewrite int_of_longlong_fits. }
  assert (Hin : In tid (fst (fst first))) by (eapply nth_error_In; exact Hid).
  assert (Hknown : findIdxOf (fst (fst first)) tid <> -1).
  { intros Habs. apply findIdxOf_absent in Habs. contradiction. }
  pose proof (resolve_conversation_stable c tid name1 name2 Hfits Hlen) as Hstable.
  fold first in Hstable. destruct first as [c1 idx1] eqn:Hfirst.
  cbn [fst snd] in *.
  rewrite resolve_conversation_known in Hstable by assumption.
  assert (Hidx : findIdxOf (fst c1) tid = idx1) by congruence.
  destruct (resolve_all_extends lookups c1) as [ids [names [Heq Hsame]]].
  fold later in Heq.
  assert (Hfound : findIdxOf (fst later) tid = idx1).
  { rewrite Heq. cbn [fst]. unfold findIdxOf.
    rewrite findIdxOf_from_app by assumption. exact Hidx. }
  subst again. rewrite resolve_conversation_known by (rewrite Hfound; lia).
  cbn [fst snd]. split; [reflexivity|].
  rewrite Hfound. unfold conversation_name. rewrite Heq. cbn [snd].
  apply app_nth1. lia.
Qed.

Lemma thread_keeps_its_folder_witness :
  let first := resolve_conversation ([1], ["Alice"]) 2 "Alice" in
  let later := resolve_all (fst first) [(3, "Alice"); (1, "Carol")] in
  let again := resolve_conversation later 2 "Bob" in
  fst again = later /\
  conversation_name (fst again) (snd again) = conversation_name (fst first) (snd first).
Proof.
  apply (thread_keeps_its_folder ([1], ["Alice"]) 2 "Alice" "Bob"
           [(3, "Alice"); (1, "Carol")]).
  - reflexivity.
  - unfold fits_int. lia.
Defined.

(** * Further properties of the loop *)

(** ** What every step of a run preserves *)

Section Preservation.

Context {FS : Type} (w : World FS) (R : State FS -> State FS -> Prop).

Hypothesis R_refl : forall st, R st st.
Hypothesis R_trans : forall st1 st2 st3, R st1 st2 -> R st2 st3 -> R st1 st3.
Hypothesis R_log : forall entries, preserved R (@logger FS entries).
Hypothesis R_fs : forall (A : Type) (f : FS -> A * FS), preserved R (with_fs f).
Hypothesis R_clear : forall i, preserved R (@clear_frame FS i).

Lemma preserved_ret {A} (x : A) : preserved R (@ret FS A x).
Proof. intros st. apply R_refl. Qed.

Lemma preserved_continue {A} (o : Outcome) : preserved R (@continue_with FS A o).
Proof. intros st. apply R_refl. Qed.

Lemma preserved_return_false {A} : preserved R (@return_false FS A).
Proof. intros st. apply R_refl. Qed.

Lemma preserved_bind {A B} (m : M FS A) (k : A -> M FS B) :
  preserved R m -> (forall x, preserved R (k x)) -> preserved R (bind m k).
Proof.
  intros Hm Hk st. unfold bind. specialize (Hm st).
  destruct (m st) as [[x|o|] st']; cbn [snd] in *; try exact Hm.
  apply (R_trans _ _ _ Hm). apply Hk.
Qed.

Ltac keeps :=
  repeat (first [ apply preserved_bind; [|intros ?]
                | apply preserved_ret | apply preserved_continue
                | apply preserved_return_false
                | apply R_log | apply R_fs | apply R_clear ]).

Lemma preserved_choose_filename (a : AttachmentFrame) (r : Row) :
  preserved R (choose_filename w a r).
Proof.
  unfold choose_filename.
  destruct (empty (recorded_filename w r)); [|keeps].
  destruct (empty (getExtension w (ct r))); keeps.
Qed.

Lemma preserved_ensure_directory (path : string) :
  preserved R (ensure_directory w path).
Proof.
  intros st. unfold ensure_directory.
  destruct (isDir w (fs st) path); [apply R_refl|].
  revert st. apply preserved_bind; [keeps|].
  intros [|]; keeps.
Qed.

Lemma preserved_write_attachment (i : nat) (a : AttachmentFrame)
    (path : string) (datum : Z) :
  preserved R (write_attachment w i a path datum).
Proof.
  unfold write_attachment.
  apply preserved_bind; [keeps|intros is_open].
  destruct is_open; cbn [negb]; [|keeps].
  apply preserved_bind; [keeps|intros written].
  destruct written; cbn [negb]; keeps.
Qed.

Hypothesis R_targetdir : forall dir r, preserved R (choose_targetdir w dir r).

Lemma preserved_handle_results (dir : string) (daterangelist : list string)
    (threads : list Z) (i : nat) (a : AttachmentFrame) (results : list Row) :
  preserved R (handle_results w dir daterangelist threads i a results).
Proof.
  unfold handle_results.
  destruct (_ && _); [keeps|].
  destruct results as [|r [|r' more]];
    [unfold unexpected_rows; keeps| |unfold unexpected_rows; keeps].
  apply preserved_bind; [apply preserved_choose_filename|intros filename].
  apply preserved_bind; [apply R_targetdir|intros targetdir].
  apply preserved_bind; [keeps|intros [is_unique unique]].
  destruct is_unique; cbn [negb]; [apply preserved_write_attachment|keeps].
Qed.

Lemma preserved_process_attachment (dir : string) (daterangelist : list string)
    (threads : list Z) (i : nat) (a : AttachmentFrame) :
  preserved R (process_attachment w dir daterangelist threads i a).
Proof.
  intros st. rewrite process_attachment_eq.
  assert (Hlookup : R st (after_lookup w daterangelist threads i st)).
  { unfold after_lookup. exact (R_log _ st). }
  destruct (exec w _ (rowId a) (attachmentId a)) as [results|]; [|exact Hlookup].
  apply (R_trans _ _ _ Hlookup). apply preserved_handle_results.
Qed.

Lemma preserved_dump_loop (dir : string) (daterangelist : list string)
    (threads : list Z) (todo : list AttachmentFrame) :
  forall i st, R st (snd (dump_loop w dir daterangelist threads i todo st)).
Proof.
  induction todo as [|a rest IH]; intros i st; [apply R_refl|].
  cbn [dump_loop].
  pose proof (preserved_process_attachment dir daterangelist threads i a st) as Hstep.
  destruct (process_attachment w dir daterangelist threads i a st) as [[x|o|] st'];
    cbn [snd] in *.
  - exact (R_trans _ _ _ Hstep (IH _ _)).
  - exact (R_trans _ _ _ Hstep (IH _ _)).
  - exact Hstep.
Qed.

End Preservation.

Section TargetdirPreservation.

Context {FS : Type} (w : World FS) (R : State FS -> State FS -> Prop).

Hypothesis R_refl : forall st, R st st.
Hypothesis R_trans : forall st1 st2 st3, R st1 st2 -> R st2 st3 -> R st1 st3.
Hypothesis R_log : forall entries, preserved R (@logger FS entries).
Hypothesis R_fs : forall (A : Type) (f : FS -> A * FS), preserved R (with_fs f).
Hypothesis R_lookup : forall tid chatpartner,
  preserved R (@with_conversations FS string (fun c =>
    let '(c', idx_of_thread) := resolve_conversation c tid chatpartner in
    (conversation_name c' idx_of_thread, c'))).

Lemma preserved_choose_targetdir (dir : string) (r : Row) :
  preserved R (choose_targetdir w dir r).
Proof.
  unfold choose_targetdir.
  destruct (fullbackup w); [|now apply preserved_ret].
  destruct (thread_id r); [|now apply preserved_ret].
  destruct (chatpartner r); [|now apply preserved_ret].
  destruct (mms_type r); [|now apply preserved_ret].
  apply preserved_bind; [assumption|apply R_lookup|intros name].
  apply preserved_bind; [assumption|now apply preserved_ensure_directory|intros _].
  apply preserved_bind; [assumption|now apply preserved_ensure_directory|intros _].
  now apply preserved_ret.
Qed.

End TargetdirPreservation.

(** ** Frames *)

Lemma released_only_refl (frames : list AttachmentFrame) : released_only frames frames.
Proof. induction frames; constructor; [now left|assumption]. Qed.

Lemma released_only_trans (f1 f2 f3 : list AttachmentFrame) :
  released_only f1 f2 -> released_only f2 f3 -> released_only f1 f3.
Proof.
  intros H12. revert f3. induction H12 as [|a b f1 f2 Hab _ IH]; intros f3 H23.
  - inversion H23. constructor.
  - inversion H23 as [|b' c f2' f3' Hbc Hrest]; subst. constructor; [|now apply IH].
    destruct Hab as [Hab|Hab], Hbc as [Hbc|Hbc]; subst; auto.
Qed.

Lemma released_only_clear_at (frames : list AttachmentFrame) :
  forall i, released_only frames (clear_at i frames).
Proof.
  induction frames as [|a rest IH]; intros [|i]; simpl; try constructor.
  - now right.
  - apply released_only_refl.
  - now left.
  - apply IH.
Qed.

Lemma released_only_same (frames frames' : list AttachmentFrame) :
  released_only frames frames' ->
  List.length frames' = List.length frames /\
  map rowId frames' = map rowId frames /\
  map attachmentId frames' = map attachmentId frames.
Proof.
  induction 1 as [|a a' rest rest' Ha _ [IHlen [IHrow IHid]]]; [repeat split|].
  simpl. rewrite IHlen, IHrow, IHid. destruct Ha as [Ha|Ha]; subst; repeat split.
Qed.

Lemma dump_loop_released_only {FS : Type} (w : World FS) (dir : string)
    (daterangelist : list string) (threads : list Z) (todo : list AttachmentFrame)
    (i : nat) (st : State FS) :
  released_only (d_attachments st)
    (d_attachments (snd (dump_loop w dir daterangelist threads i todo st))).
Proof.
  set (R := fun s1 s2 : State FS => released_only (d_attachments s1) (d_attachments s2)).
  assert (R_refl : forall s, R s s) by (intros s; apply released_only_refl).
  assert (R_trans : forall s1 s2 s3, R s1 s2 -> R s2 s3 -> R s1 s3)
    by (intros s1 s2 s3; apply released_only_trans).
  assert (R_log : forall entries, preserved R (@logger FS entries))
    by (intros entries s; apply released_only_refl).
  assert (R_fs : forall (A : Type) (f : FS -> A * FS), preserved R (with_fs f)).
  { intros A f s. unfold R, with_fs. destruct (f (fs s)). apply released_only_refl. }
  apply (preserved_dump_loop w R R_refl R_trans R_log R_fs).
  - intros j s. apply released_only_clear_at.
  - apply preserved_choose_targetdir; try assumption.
    intros tid cp s. unfold R, with_conversations.
    destruct (resolve_conversation (conversations s) tid cp). apply released_only_refl.
Qed.

(** X11. Whatever a run does and however it ends, the attachment
    frames after it are the frames before it, in the same order, each
    either untouched or with its payload released: no frame is added,
    dropped or given other identifiers. *)
Theorem export_only_releases_payloads {FS : Type} (w : World FS) (dir : string)
    (daterangelist : list string) (threads : list Z) (overwrite : bool) (st : State FS) :
  let frames' := d_attachments (snd (dumpMedia w dir daterangelist threads overwrite st)) in
  released_only (d_attachments st) frames' /\
  List.length frames' = List.length (d_attachments st) /\
  map rowId frames' = map rowId (d_attachments st) /\
  map attachmentId frames' = map attachmentId (d_attachments st).
Proof.
  intros frames'.
  assert (Hreleased : released_only (d_attachments st) frames').
  { subst frames'. unfold dumpMedia.
    destruct (negb (containsTable w "part") || negb (tableContainsColumn w "part" "display_order"));
      [apply released_only_refl|].
    cbn [add_log fs log d_attachments conversations].
    destruct (prepareOutputDirectory w (fs st) dir overwrite) as [prepared fs'].
    destruct prepared; cbn [negb]; [|apply released_only_refl].
    match goal with
    | |- context [dump_loop w dir daterangelist threads 0 ?todo ?start] =>
        pose proof (dump_loop_released_only w dir daterangelist threads todo 0 start) as Hloop;
        destruct (dump_loop w dir daterangelist threads 0 todo start) as [result st']
    end.
    cbn [snd d_attachments] in Hloop. destruct result; exact Hloop. }
  split; [exact Hreleased|]. now apply released_only_same.
Qed.

(** ** The log *)

Lemma dump_loop_log_grows {FS : Type} (w : World FS) (dir : string)
    (daterangelist : list string) (threads : list Z) (todo : list AttachmentFrame)
    (i : nat) (st : State FS) :
  exists more,
    log (snd (dump_loop w dir daterangelist threads i todo st)) = (log st ++ more)%list.
Proof.
  set (R := fun s1 s2 : State FS => exists more, log s2 = (log s1 ++ more)%list).
  assert (R_refl : forall s, R s s) by (intros s; exists []; now rewrite app_nil_r).
  assert (R_trans : forall s1 s2 s3, R s1 s2 -> R s2 s3 -> R s1 s3).
  { intros s1 s2 s3 [m1 H1] [m2 H2]. exists (m1 ++ m2)%list.
    now rewrite H2, H1, app_assoc. }
  assert (R_log : forall entries, preserved R (@logger FS entries))
    by (intros entries s; exists entries; reflexivity).
  assert (R_fs : forall (A : Type) (f : FS -> A * FS), preserved R (with_fs f)).
  { intros A f s. unfold R, with_fs. destruct (f (fs s)).
    exists []. cbn. now rewrite app_nil_r. }
  apply (preserved_dump_loop w R R_refl R_trans R_log R_fs).
  - intros j s. exists []. cbn. now rewrite app_nil_r.
  - apply preserved_choose_targetdir; try assumption.
    intros tid cp s. unfold R, with_conversations.
    destruct (resolve_conversation (conversations s) tid cp).
    exists []. cbn. now rewrite app_nil_r.
Qed.

(** X12. A run only adds to the log: what was logged before is kept,
    the first line added announces the output directory, and the last
    line of a run that returns success is ["done."]. *)
Theorem log_only_grows {FS : Type} (w : World FS) (dir : string)
    (daterangelist : list string) (threads : list Z) (overwrite : bool) (st : State FS) :
  let run := dumpMedia w dir daterangelist threads overwrite st in
  exists more,
    log (snd run) =
      (log st ++ Message ("Dumping media to dir '" ++ dir ++ "'") :: more)%list /\
    (fst run = true -> exists middle, more = (middle ++ [Message "done."])%list).
Proof.
  intros run. subst run. unfold dumpMedia.
  destruct (negb (containsTable w "part") || negb (tableContainsColumn w "part" "display_order")).
  { eexists. cbn [snd fst add_log log]. rewrite <- app_assoc. cbn [app].
    split; [reflexivity|discriminate]. }
  cbn [add_log fs log d_attachments conversations].
  destruct (prepareOutputDirectory w (fs st) dir overwrite) as [prepared fs'].
  destruct prepared; cbn [negb].
  2:{ exists []. cbn [snd fst log]. split; [reflexivity|discriminate]. }
  match goal with
  | |- context [dump_loop w dir daterangelist threads 0 ?todo ?start] =>
      destruct (dump_loop_log_grows w dir daterangelist threads todo 0 start) as [middle Hlog];
      destruct (dump_loop w dir daterangelist threads 0 todo start) as [result st']
  end.
  cbn [snd log] in Hlog. destruct result; cbn [snd fst add_log log].
  - exists (middle ++ [Message "done."])%list. rewrite Hlog.
    rewrite <- !app_assoc. cbn [app]. split; [reflexivity|].
    intros _. now exists middle.
  - exists middle. rewrite Hlog. rewrite <- app_assoc. cbn [app].
    split; [reflexivity|discriminate].
Qed.

(** ** The registry during a run *)

Lemma dump_loop_registry {FS : Type} (w : World FS) (dir : string)
    (daterangelist : list string) (threads : list Z) (todo : list AttachmentFrame)
    (i : nat) (st : State FS) :
  List.length (fst (conversations st)) = List.length (snd (conversations st)) /\
  NoDup (snd (conversations st)) ->
  let st' := snd (dump_loop w dir daterangelist threads i todo st) in
  List.length (fst (conversations st')) = List.length (snd (conversations st')) /\
  NoDup (snd (conversations st')).
Proof.
  set (good := fun s : State FS =>
    List.length (fst (conversations s)) = List.length (snd (conversations s)) /\
    NoDup (snd (conversations s))).
  set (R := fun s1 s2 : State FS => good s1 -> good s2).
  assert (R_refl : forall s, R s s) by (intros s H; exact H).
  assert (R_trans : forall s1 s2 s3, R s1 s2 -> R s2 s3 -> R s1 s3)
    by (intros s1 s2 s3 H12 H23 H; exact (H23 (H12 H))).
  assert (R_log : forall entries, preserved R (@logger FS entries))
    by (intros entries s H; exact H).
  assert (R_fs : forall (A : Type) (f : FS -> A * FS), preserved R (with_fs f)).
  { intros A f s. unfold R, with_fs. destruct (f (fs s)). intros H; exact H. }
  apply (preserved_dump_loop w R R_refl R_trans R_log R_fs).
  - intros j s H. exact H.
  - apply preserved_choose_targetdir; try assumption.
    intros tid cp s [Hlen Hnames]. unfold good, with_conversations.
    pose proof (resolve_conversation_lengths (conversations s) tid cp Hlen) as Hlen'.
    pose proof (resolve_conversation_names_distinct (conversations s) tid cp Hnames) as Hnames'.
    destruct (resolve_conversation (conversations s) tid cp) as [c' idx].
    cbn [snd fst conversations] in *. split; assumption.
Qed.

(** X13. In every run that gets past the check of the [part] table,
    whatever thread ids and names the database holds, the registry at
    the end has as many ids as names and no directory name twice. *)
Theorem registry_sound_after_run {FS : Type} (w : World FS) (dir : string)
    (daterangelist : list string) (threads : list Z) (overwrite : bool) (st : State FS) :
  containsTable w "part" = true ->
  tableContainsColumn w "part" "display_order" = true ->
  let c := conversations (snd (dumpMedia w dir daterangelist threads overwrite st)) in
  List.length (fst c) = List.length (snd c) /\ NoDup (snd c).
Proof.
  intros Hpart Hcolumn c. subst c. unfold dumpMedia. rewrite Hpart, Hcolumn.
  cbn [negb orb add_log fs log d_attachments conversations].
  destruct (prepareOutputDirectory w (fs st) dir overwrite) as [prepared fs'].
  destruct prepared; cbn [negb].
  2:{ cbn. split; [reflexivity|constructor]. }
  match goal with
  | |- context [dump_loop w dir daterangelist threads 0 ?todo ?start] =>
      pose proof (dump_loop_registry w dir daterangelist threads todo 0 start) as Hloop;
      destruct (dump_loop w dir daterangelist threads 0 todo start) as [result st']
  end.
  cbn [snd conversations] in Hloop.
  specialize (Hloop (conj eq_refl (NoDup_nil string))).
  destruct result; exact Hloop.
Qed.

Lemma registry_sound_after_run_witness :
  let rows := fun rid _ : Z => [sample_row 0 (Some 1672574400123) rid "Alice"] in
  let w := sample_world full_tables (fun _ => fun rid uid => Some (rows rid uid)) true true in
  let c := conversations (snd (dumpMedia w "out" [] [] false
                                 (sample_state [sample_frame 1 10; sample_frame 2 20]))) in
  List.length (fst c) = List.length (snd c) /\ NoDup (snd c).
Proof.
  apply (registry_sound_after_run
           (sample_world full_tables
              (fun _ => fun rid uid => Some [sample_row 0 (Some 1672574400123) rid "Alice"])
              true true)
           "out" [] [] false (sample_state [sample_frame 1 10; sample_frame 2 20]));
    reflexivity.
Defined.

Lemma dump_loop_minimal_registry {FS : Type} (w : World FS) (dir : string)
    (daterangelist : list string) (threads : list Z) (todo : list AttachmentFrame)
    (i : nat) (st : State FS) :
  fullbackup w = false ->
  conversations (snd (dump_loop w dir daterangelist threads i todo st)) = conversations st.
Proof.
  intros Hminimal.
  set (R := fun s1 s2 : State FS => conversations s2 = conversations s1).
  assert (R_refl : forall s, R s s) by reflexivity.
  assert (R_trans : forall s1 s2 s3, R s1 s2 -> R s2 s3 -> R s1 s3)
    by (intros s1 s2 s3 H12 H23; unfold R in *; congruence).
  assert (R_log : forall entries, preserved R (@logger FS entries))
    by (intros entries s; reflexivity).
  assert (R_fs : forall (A : Type) (f : FS -> A * FS), preserved R (with_fs f)).
  { intros A f s. unfold R, with_fs. destruct (f (fs s)). reflexivity. }
  apply (preserved_dump_loop w R R_refl R_trans R_log R_fs).
  - intros j s. reflexivity.
  - intros dir' r s. unfold choose_targetdir. rewrite Hminimal. reflexivity.
Qed.

(** X14. On a database without the tables of the full projection a run
    that gets past the check of the [part] table never records a
    conversation: the registry is empty at the end. *)
Theorem minimal_run_registers_nothing {FS : Type} (w : World FS) (dir : string)
    (daterangelist : list string) (threads : list Z) (overwrite : bool) (st : State FS) :
  fullbackup w = false ->
  containsTable w "part" = true ->
  tableContainsColumn w "part" "display_order" = true ->
  conversations (snd (dumpMedia w dir daterangelist threads overwrite st)) = no_conversations.
Proof.
  intros Hminimal Hpart Hcolumn. unfold dumpMedia. rewrite Hpart, Hcolumn.
  cbn [negb orb add_log fs log d_attachments conversations].
  destruct (prepareOutputDirectory w (fs st) dir overwrite) as [prepared fs'].
  destruct prepared; cbn [negb]; [|reflexivity].
  match goal with
  | |- context [dump_loop w dir daterangelist threads 0 ?todo ?start] =>
      pose proof (dump_loop_minimal_registry w dir daterangelist threads todo 0 start
                    Hminimal) as Hloop;
      destruct (dump_loop w dir daterangelist threads 0 todo start) as [result st']
  end.
  cbn [snd conversations] in Hloop. destruct result; exact Hloop.
Qed.

Lemma minimal_run_registers_nothing_witness :
  let rows := fun rid _ : Z => [sample_row 0 (Some 1672574400123) rid "Alice"] in
  let w := sample_world ["part"] (fun _ => fun rid uid => Some (rows rid uid)) true true in
  conversations (snd (dumpMedia w "out" [] [] false
                        (sample_state [sample_frame 1 10; sample_frame 2 20])))
  = no_conversations.
Proof.
  apply (minimal_run_registers_nothing
           (sample_world ["part"]
              (fun _ => fun rid uid => Some [sample_row 0 (Some 1672574400123) rid "Alice"])
              true true)
           "out" [] [] false (sample_state [sample_frame 1 10; sample_frame 2 20]));
    reflexivity.
Defined.

(** ** Payloads and outcomes *)

Section Quiet.

Context {FS : Type} (w : World FS).

Lemma quiet_ret {A} (x : A) : quiet (@ret FS A x).
Proof. intros st. split; [reflexivity|discriminate]. Qed.

Lemma quiet_logger (entries : list LogEntry) : quiet (@logger FS entries).
Proof. intros st. split; [reflexivity|discriminate]. Qed.

Lemma quiet_with_fs {A} (f : FS -> A * FS) : quiet (with_fs f).
Proof.
  intros st. unfold with_fs. destruct (f (fs st)). split; [reflexivity|discriminate].
Qed.

Lemma quiet_with_conversations {A} (f : Conversations -> A * Conversations) :
  quiet (@with_conversations FS A f).
Proof.
  intros st. unfold with_conversations. destruct (f (conversations st)).
  split; [reflexivity|discriminate].
Qed.

Lemma quiet_continue {A} (o : Outcome) : o <> WriteFailed -> quiet (@continue_with FS A o).
Proof. intros Ho st. split; [reflexivity|]. cbn. congruence. Qed.

Lemma quiet_bind {A B} (m : M FS A) (k : A -> M FS B) :
  quiet m -> (forall x, quiet (k x)) -> quiet (bind m k).
Proof.
  intros Hm Hk st. unfold bind. destruct (Hm st) as [Hframes Hflow].
  destruct (m st) as [[x|o|] st']; cbn [fst snd] in *.
  - destruct (Hk x st') as [Hframes' Hflow']. split; [congruence|assumption].
  - split; [assumption|congruence].
  - split; [assumption|discriminate].
Qed.

#[local] Hint Resolve quiet_ret quiet_logger quiet_with_fs quiet_with_conversations : aborts.

Ltac hush :=
  repeat (first [ apply quiet_bind; [|intros ?]
                | apply quiet_continue; discriminate
                | solve [auto with aborts] ]).

Lemma quiet_choose_filename (a : AttachmentFrame) (r : Row) :
  quiet (choose_filename w a r).
Proof.
  unfold choose_filename.
  destruct (empty (recorded_filename w r)); [|hush].
  destruct (empty (getExtension w (ct r))); hush.
Qed.

Lemma quiet_ensure_directory (path : string) : quiet (ensure_directory w path).
Proof.
  intros st. unfold ensure_directory.
  destruct (isDir w (fs st) path); [split; [reflexivity|discriminate]|].
  revert st. apply quiet_bind; [hush|].
  intros [|]; hush.
Qed.

Lemma quiet_choose_targetdir (dir : string) (r : Row) :
  quiet (choose_targetdir w dir r).
Proof.
  unfold choose_targetdir.
  destruct (fullbackup w); [|hush].
  destruct (thread_id r); [|hush].
  destruct (chatpartner r); [|hush].
  destruct (mms_type r); [|hush].
  apply quiet_bind; [hush|intros name].
  apply quiet_bind; [apply quiet_ensure_directory|intros _].
  apply quiet_bind; [apply quiet_ensure_directory|intros _].
  hush.
Qed.

Lemma releases_bind {A} (i : nat) (m : M FS A) (k : A -> M FS unit) :
  quiet m -> (forall x, releases_after_write i (k x)) ->
  releases_after_write i (bind m k).
Proof.
  intros Hm Hk st. unfold bind. destruct (Hm st) as [Hframes Hflow].
  destruct (m st) as [[x|o|] st']; cbn [fst snd] in *.
  - rewrite (Hk x st'), Hframes. reflexivity.
  - destruct o; cbn [after_write]; try assumption. congruence.
  - assumption.
Qed.

Lemma releases_continue (i : nat) (o : Outcome) :
  o <> WriteFailed -> releases_after_write i (@continue_with FS unit o).
Proof. intros Ho st. destruct o; cbn; congruence. Qed.

Lemma releases_write_attachment (i : nat) (a : AttachmentFrame)
    (path : string) (datum : Z) :
  releases_after_write i (write_attachment w i a path datum).
Proof.
  intros st.
  unfold write_attachment, bind, with_fs, logger, clear_frame, continue_with.
  destruct (ofstream_open w (fs st) path) as [is_open fs1].
  cbn [fst snd fs conversations log d_attachments]. destruct is_open; cbn [negb].
  - cbn [fst snd fs conversations log d_attachments].
    destruct (ofstream_write w fs1 path (attachmentData a)) as [ok fs2].
    destruct ok; reflexivity.
  - reflexivity.
Qed.

Lemma releases_handle_results (dir : string) (daterangelist : list string)
    (threads : list Z) (i : nat) (a : AttachmentFrame) (results : list Row) :
  releases_after_write i (handle_results w dir daterangelist threads i a results).
Proof.
  unfold handle_results.
  destruct (_ && _); [apply releases_continue; discriminate|].
  assert (Hunexpected : releases_after_write i (unexpected_rows a results : M FS unit)).
  { unfold unexpected_rows. apply releases_bind; [apply quiet_logger|intros _].
    apply releases_continue. discriminate. }
  destruct results as [|r [|r' more]]; try exact Hunexpected.
  apply releases_bind; [apply quiet_choose_filename|intros filename].
  apply releases_bind; [apply quiet_choose_targetdir|intros targetdir].
  apply releases_bind; [apply quiet_with_fs|intros [is_unique unique]].
  destruct is_unique; cbn [negb]; [apply releases_write_attachment|].
  apply releases_bind; [apply quiet_logger|intros _].
  apply releases_continue. discriminate.
Qed.

End Quiet.

(** X15. One pass of the loop body for the frame at position [i]
    releases the payload of that frame exactly when the body is left at
    its end or after a failed write; in every other case (lookup
    refused, excluded by a filter, unexpected rows, directory not
    created, no unique name, file not opened) the frames are as they
    were.  The frames at the other positions are never touched. *)
Theorem payload_released_iff_written {FS : Type} (w : World FS) (dir : string)
    (daterangelist : list string) (threads : list Z) (i : nat)
    (a : AttachmentFrame) (st : State FS) :
  let result := process_attachment w dir daterangelist threads i a st in
  d_attachments (snd result) =
    (if after_write (fst result) then clear_at i (d_attachments st)
     else d_attachments st) /\
  (forall j, j <> i ->
     nth_error (d_attachments (snd result)) j = nth_error (d_attachments st) j).
Proof.
  intros result.
  assert (Hframes : d_attachments (snd result) =
    (if after_write (fst result) then clear_at i (d_attachments st)
     else d_attachments st)).
  { subst result. rewrite process_attachment_eq.
    destruct (exec w _ (rowId a) (attachmentId a)) as [results|]; [|reflexivity].
    apply (releases_handle_results w dir daterangelist threads i a results
             (after_lookup w daterangelist threads i st)). }
  split; [exact Hframes|].
  intros j Hj. rewrite Hframes.
  destruct (after_write (fst result)); [|reflexivity].
  apply nth_error_clear_at_other. congruence.
Qed.

(** ** Directories and names *)

Lemma ensure_directory_outcome {FS : Type} (w : World FS) (path : string) (st : State FS) :
  let result := ensure_directory w path st in
  conversations (snd result) = conversations st /\
  ((fst result = Next tt /\ log (snd result) = log st) \/
   (fst result = Continue DirectoryFailed /\
    log (snd result) =
      (log st ++ [Error ("Failed to create directory '" ++ path ++ "'")])%list)).
Proof.
  intros result. subst result. unfold ensure_directory.
  destruct (isDir w (fs st) path); [split; [reflexivity|left; split; reflexivity]|].
  unfold bind, with_fs, logger, continue_with, ret.
  destruct (createDir w (fs st) path) as [created fs'].
  destruct created; cbn.
  - split; [reflexivity|left; split; reflexivity].
  - split; [reflexivity|right; split; reflexivity].
Qed.

(** X16. For a row of the full projection with thread id, chat partner
    and message type, the thread is looked up in the registry under the
    sanitized partner name (["Contact <thread id>"] when nothing is
    left of it) and recorded there whether or not its directories can
    be made.  The body then either goes on with the directory
    [<dir>/<name>/sent] for an outgoing message and
    [<dir>/<name>/received] otherwise, with nothing logged, or the
    attachment is skipped with one error naming the directory that
    could not be created. *)
Theorem conversation_folder_layout {FS : Type} (w : World FS) (dir : string) (r : Row)
    (tid : Z) (partner : string) (msg_box : Z) (st : State FS) :
  fullbackup w = true ->
  thread_id r = Some tid -> chatpartner r = Some partner -> mms_type r = Some msg_box ->
  let cleaned := sanitizeFilename w partner in
  let lookup := resolve_conversation (conversations st) tid
                  (if empty cleaned then "Contact " ++ toString tid else cleaned) in
  let name := conversation_name (fst lookup) (snd lookup) in
  let targetdir :=
    dir ++ "/" ++ name ++ "/" ++ (if isOutgoing w msg_box then "sent" else "received") in
  let result := choose_targetdir w dir r st in
  conversations (snd result) = fst lookup /\
  ((fst result = Next targetdir /\ log (snd result) = log st) \/
   (fst result = Continue DirectoryFailed /\
    exists path,
      (path = dir ++ "/" ++ name \/ path = targetdir) /\
      log (snd result) =
        (log st ++ [Error ("Failed to create directory '" ++ path ++ "'")])%list)).
Proof.
  intros Hfull Htid Hpartner Hbox cleaned lookup name targetdir result.
  assert (Hresult : result = choose_targetdir w dir r st) by reflexivity.
  clearbody result. unfold choose_targetdir in Hresult.
  rewrite Hfull, Htid, Hpartner, Hbox in Hresult. fold cleaned in Hresult.
  rewrite bind_eq in Hresult. unfold with_conversations in Hresult.
  fold lookup in Hresult. subst name targetdir.
  destruct lookup as [c' idx]. cbn [fst snd] in *.
  set (name := conversation_name c' idx) in *.
  set (targetdir := dir ++ "/" ++ name ++ "/" ++
                    (if isOutgoing w msg_box then "sent" else "received")) in *.
  set (st1 := {| conversations := c'; fs := fs st; log := log st;
                 d_attachments := d_attachments st |}) in Hresult.
  rewrite bind_eq in Hresult.
  destruct (ensure_directory_outcome w (dir ++ "/" ++ name) st1) as [Hconv1 Hfirst].
  destruct (ensure_directory w (dir ++ "/" ++ name) st1) as [[[]|o|] st2];
    cbn [fst snd] in *.
  - destruct Hfirst as [[_ Hlog1]|[Habs _]]; [|discriminate Habs].
    rewrite bind_eq in Hresult.
    destruct (ensure_directory_outcome w targetdir st2) as [Hconv2 Hsecond].
    destruct (ensure_directory w targetdir st2) as [[[]|o|] st3];
      cbn [fst snd] in *; subst result; cbn [fst snd ret].
    + destruct Hsecond as [[_ Hlog2]|[Habs _]]; [|discriminate Habs].
      split; [now rewrite Hconv2, Hconv1|]. left. split; [reflexivity|].
      now rewrite Hlog2, Hlog1.
    + destruct Hsecond as [[Habs _]|[Hflow Hlog2]]; [discriminate Habs|].
      split; [now rewrite Hconv2, Hconv1|]. right.
      split; [now inversion Hflow|].
      exists targetdir. split; [now right|]. rewrite Hlog2, Hlog1. reflexivity.
    + destruct Hsecond as [[Habs _]|[Habs _]]; discriminate Habs.
  - subst result. cbn [fst snd].
    destruct Hfirst as [[Habs _]|[Hflow Hlog1]]; [discriminate Habs|].
    split; [exact Hconv1|]. right. split; [now inversion Hflow|].
    exists (dir ++ "/" ++ name). split; [now left|exact Hlog1].
  - destruct Hfirst as [[Habs _]|[Habs _]]; discriminate Habs.
Qed.

Lemma conversation_folder_layout_witness :
  let w := sample_world full_tables (fun _ _ _ => Some []) true true in
  let r := sample_row 0 (Some 1672574400123) 7 "Alice" in
  let st := sample_state [sample_frame 1 10] in
  let cleaned := sanitizeFilename w "Alice" in
  let lookup := resolve_conversation (conversations st) 7
                  (if empty cleaned then "Contact " ++ toString 7 else cleaned) in
  let name := conversation_name (fst lookup) (snd lookup) in
  let targetdir :=
    "out" ++ "/" ++ name ++ "/" ++ (if isOutgoing w 23 then "sent" else "received") in
  let result := choose_targetdir w "out" r st in
  conversations (snd result) = fst lookup /\
  ((fst result = Next targetdir /\ log (snd result) = log st) \/
   (fst result = Continue DirectoryFailed /\
    exists path,
      (path = "out" ++ "/" ++ name \/ path = targetdir) /\
      log (snd result) =
        (log st ++ [Error ("Failed to create directory '" ++ path ++ "'")])%list)).
Proof.
  exact (conversation_folder_layout
           (sample_world full_tables (fun _ _ _ => Some []) true true) "out"
           (sample_row 0 (Some 1672574400123) 7 "Alice") 7 "Alice" 23
           (sample_state [sample_frame 1 10]) eq_refl eq_refl eq_refl eq_refl).
Defined.

Lemma generated_filename_not_empty {FS : Type} (w : World FS) (datum order : Z)
    (ext : string) :
  generated_filename w datum order ext <> "".
Proof.
  unfold generated_filename, date_stem, put_time_signal. cbn [append]. discriminate.
Qed.

(** X17. The name chosen for an attachment is never empty, and choosing
    it never skips the attachment: the step goes on with a name, leaves
    registry, file system and frames alone, and logs nothing or the one
    warning about an unknown mime type. *)
Theorem filename_never_empty {FS : Type} (w : World FS)
    (a : AttachmentFrame) (r : Row) (st : State FS) :
  let result := choose_filename w a r st in
  exists filename,
    fst result = Next filename /\ filename <> "" /\
    conversations (snd result) = conversations st /\
    fs (snd result) = fs st /\
    d_attachments (snd result) = d_attachments st /\
    (log (snd result) = log st \/
     exists text, log (snd result) = (log st ++ [Warning text])%list).
Proof.
  intros result. subst result. unfold choose_filename.
  destruct (empty (recorded_filename w r)) eqn:Hrecorded.
  - destruct (empty (getExtension w (ct r))).
    + eexists. cbn. split; [reflexivity|]. split; [apply generated_filename_not_empty|].
      repeat split. right. eexists. reflexivity.
    + eexists. cbn. split; [reflexivity|]. split; [apply generated_filename_not_empty|].
      repeat split. now left.
  - exists (recorded_filename w r). cbn. split; [reflexivity|]. split.
    + intros Hempty. rewrite Hempty in Hrecorded. discriminate Hrecorded.
    + repeat split. now left.
Qed.

(** X18. With no usable name on record and a mime type the table does
    not know, the name ends in [.attach] and one warning is logged that
    names the mime type and the stem with [.attach], without the
    display order; the stem is that of the attachment id when the
    projection is minimal or the row has no received timestamp. *)
Theorem unknown_mime_type_saved_as_attach {FS : Type} (w : World FS)
    (a : AttachmentFrame) (r : Row) (st : State FS) :
  recorded_filename w r = "" ->
  getExtension w (ct r) = "" ->
  let stem := date_stem w (effective_datum w a r) in
  choose_filename w a r st =
    (Next (stem ++ (if display_order r =? 0 then "" else "_" ++ toString (display_order r))
                ++ ".attach"),
     add_log [Warning ("mimetype not found in database (" ++ ct r ++
                       ") -> saving as '" ++ stem ++ ".attach'")] st) /\
  (fullbackup w = false \/ date_received r = None ->
   effective_datum w a r = attachmentId a).
Proof.
  intros Hname Hext stem. split.
  - unfold choose_filename. rewrite Hname, Hext. reflexivity.
  - unfold effective_datum. intros [Hminimal|Hnull].
    + now rewrite Hminimal.
    + rewrite Hnull. now destruct (fullbackup w).
Qed.

Lemma unknown_mime_type_saved_as_attach_witness :
  let w := sample_world ["part"] (fun _ _ _ => Some []) true true in
  let a := sample_frame 1 1672574400123 in
  let r := {| ct := "application/x-unknown"; file_name := None; display_order := 2;
              date_received := None; mms_type := None; thread_id := None;
              chatpartner := None |} in
  let st := sample_state [a] in
  let stem := date_stem w (effective_datum w a r) in
  choose_filename w a r st =
    (Next (stem ++ (if display_order r =? 0 then "" else "_" ++ toString (display_order r))
                ++ ".attach"),
     add_log [Warning ("mimetype not found in database (" ++ ct r ++
                       ") -> saving as '" ++ stem ++ ".attach'")] st) /\
  (fullbackup w = false \/ date_received r = None ->
   effective_datum w a r = attachmentId a).
Proof.
  exact (unknown_mime_type_saved_as_attach
           (sample_world ["part"] (fun _ _ _ => Some []) true true)
           (sample_frame 1 1672574400123)
           {| ct := "application/x-unknown"; file_name := None; display_order := 2;
              date_received := None; mms_type := None; thread_id := None;
              chatpartner := None |}
           (sample_state [sample_frame 1 1672574400123]) eq_refl eq_refl).
Defined.

(** ** The order of a run *)

(** X19. When the store refuses the lookup of an attachment the loop
    stops there with failure: the progress line and what building the
    statement logs are added to the log, and registry, file system and
    every frame, the later ones included, are as they were. *)
Theorem refused_lookup_stops_the_loop {FS : Type} (w : World FS) (dir : string)
    (daterangelist : list string) (threads : list Z) (i : nat)
    (a : AttachmentFrame) (rest : list AttachmentFrame) (st : State FS) :
  exec w (fst (lookup_query w daterangelist threads)) (rowId a) (attachmentId a) = None ->
  let result := dump_loop w dir daterangelist threads i (a :: rest) st in
  fst result = false /\
  snd result = after_lookup w daterangelist threads i st /\
  conversations (snd result) = conversations st /\
  fs (snd result) = fs st /\
  d_attachments (snd result) = d_attachments st.
Proof.
  intros Hexec result. subst result. cbn [dump_loop].
  rewrite process_attachment_eq, Hexec. repeat split.
Qed.

Lemma refused_lookup_stops_the_loop_witness :
  let w := sample_world full_tables (fun _ _ _ => None) true true in
  let st := sample_state [sample_frame 1 10; sample_frame 2 20] in
  let result := dump_loop w "out" [] [] 0 [sample_frame 1 10; sample_frame 2 20] st in
  fst result = false /\
  snd result = after_lookup w [] [] 0 st /\
  conversations (snd result) = conversations st /\
  fs (snd result) = fs st /\
  d_attachments (snd result) = d_attachments st.
Proof.
  exact (refused_lookup_stops_the_loop
           (sample_world full_tables (fun _ _ _ => None) true true) "out" [] [] 0
           (sample_frame 1 10) [sample_frame 2 20]
           (sample_state [sample_frame 1 10; sample_frame 2 20]) eq_refl).
Defined.

(** X20. The loop works through the attachments strictly in order: the
    loop over one list of frames followed by another is the loop over
    the first and, unless that failed, the loop over the second from
    the state and the position the first one ended with. *)
Theorem dump_loop_in_sequence {FS : Type} (w : World FS) (dir : string)
    (daterangelist : list string) (threads : list Z)
    (first second : list AttachmentFrame) :
  forall i st,
    dump_loop w dir daterangelist threads i (first ++ second) st =
    (if fst (dump_loop w dir daterangelist threads i first st)
     then dump_loop w dir daterangelist threads (i + List.length first) second
            (snd (dump_loop w dir daterangelist threads i first st))
     else (false, snd (dump_loop w dir daterangelist threads i first st))).
Proof.
  induction first as [|a rest IH]; intros i st.
  - cbn [app dump_loop fst snd List.length]. now rewrite Nat.add_0_r.
  - cbn [app dump_loop List.length].
    destruct (process_attachment w dir daterangelist threads i a st) as [[x|o|] st'].
    + rewrite IH. now rewrite Nat.add_succ_comm.
    + rewrite IH. now rewrite Nat.add_succ_comm.
    + reflexivity.
Qed.

(** X21. In minimal mode, for an attachment with one row and a usable
    name on record, when the name can be made unique, the stream opens
    and the write succeeds: the file is [<dir>/<unique name>], it is
    opened, written with the payload, closed and only then stamped with
    the attachment id as its time; the payload is released, nothing is
    logged and the registry is not touched. *)
Theorem minimal_export_sequence {FS : Type} (w : World FS) (dir : string)
    (daterangelist : list string) (threads : list Z) (i : nat)
    (a : AttachmentFrame) (r : Row) (st : State FS) :
  fullbackup w = false ->
  recorded_filename w r <> "" ->
  let unique := makeFilenameUnique w (fs st) dir (recorded_filename w r) in
  let path := dir ++ "/" ++ snd (fst unique) in
  let opened := ofstream_open w (snd unique) path in
  let written := ofstream_write w (snd opened) path (attachmentData a) in
  fst (fst unique) = true -> fst opened = true -> fst written = true ->
  handle_results w dir daterangelist threads i a [r] st =
  (Next tt,
   {| conversations := conversations st;
      fs := setFileTimeStamp w (ofstream_close w (snd written) path) path (attachmentId a);
      log := log st;
      d_attachments := clear_at i (d_attachments st) |}).
Proof.
  intros Hminimal Hname unique path opened written Hunique Hopened Hwritten.
  subst written opened path unique.
  unfold handle_results, choose_filename, choose_targetdir, effective_datum.
  cbn [List.length Nat.eqb andb]. rewrite Hminimal.
  destruct (empty (recorded_filename w r)) eqn:Hempty.
  { destruct (recorded_filename w r); [contradiction|discriminate Hempty]. }
  unfold write_attachment, bind, ret, with_fs, logger, clear_frame, continue_with.
  cbn [fs conversations log d_attachments].
  destruct (makeFilenameUnique w (fs st) dir (recorded_filename w r))
    as [[is_unique filename] fs1].
  cbn [fst snd] in *. subst is_unique. cbn [negb fs conversations log d_attachments].
  destruct (ofstream_open w fs1 (dir ++ "/" ++ filename)) as [is_open fs2].
  cbn [fst snd] in *. subst is_open. cbn [negb fs conversations log d_attachments].
  destruct (ofstream_write w fs2 (dir ++ "/" ++ filename) (attachmentData a))
    as [ok fs3].
  cbn [fst snd] in *. subst ok. reflexivity.
Qed.

Lemma minimal_export_sequence_witness :
  let w := sample_world ["part"] (fun _ _ _ => Some []) true true in
  let a := sample_frame 1 10 in
  let r := {| ct := "image/png"; file_name := Some "photo.png"; display_order := 0;
              date_received := None; mms_type := None; thread_id := None;
              chatpartner := None |} in
  let st := sample_state [a] in
  let unique := makeFilenameUnique w (fs st) "out" (recorded_filename w r) in
  let path := "out" ++ "/" ++ snd (fst unique) in
  let opened := ofstream_open w (snd unique) path in
  let written := ofstream_write w (snd opened) path (attachmentData a) in
  handle_results w "out" [] [] 0 a [r] st =
  (Next tt,
   {| conversations := conversations st;
      fs := setFileTimeStamp w (ofstream_close w (snd written) path) path (attachmentId a);
      log := log st;
      d_attachments := clear_at 0 (d_attachments st) |}).
Proof.
  refine (minimal_export_sequence
            (sample_world ["part"] (fun _ _ _ => Some []) true true) "out" [] [] 0
            (sample_frame 1 10)
            {| ct := "image/png"; file_name := Some "photo.png"; display_order := 0;
               date_received := None; mms_type := None; thread_id := None;
               chatpartner := None |}
            (sample_state [sample_frame 1 10]) eq_refl _ eq_refl eq_refl eq_refl).
  vm_compute. discriminate.
Defined.
